(** * The launcher's mod manager (launcher/modManager/cmodmanager.cpp)

    A shallow embedding of [CModManager] and of the two helpers of its
    translation unit, [detectModArchive] and [writeValue], together with
    the properties of the mod manager's specification.

    Conventions of the embedding:
    - a [QString] is a [string]; a QChar is an [ascii] (the Latin-1 range,
      case mapping and digits restricted to ASCII);
    - a [QVariantMap] is a [gmap string QVariant];
    - the Qt and VCMI services the manager calls (file system, archive
      codec, resource resolver, [CModList]) are the fields of two
      interfaces, [ModListApi] and [Platform]; everything the manager
      itself computes is a definition below;
    - a member function of [CModManager] is a function from the manager's
      fields and the world to its result and the new fields and world. *)

From stdpp Require Import gmap strings list fin_maps.
From Stdlib Require Import ZArith Ascii String Lia.

Local Set Warnings "-register-all".
Local Open Scope string_scope.
Local Open Scope Z_scope.

(** ** QString *)

Module QtString.

Definition QString := string.
Definition QStringList := list string.

(** [QString::size]. *)
Definition size (s : QString) : Z := Z.of_nat (String.length s).

(** [QString::split(sep, Qt::KeepEmptyParts)]: the fields between the
    separators; the empty string has one (empty) field. *)
Fixpoint split (sep : ascii) (s : QString) : list QString :=
  match s with
  | EmptyString => [EmptyString]
  | String c s' =>
      if Ascii.eqb c sep then EmptyString :: split sep s'
      else match split sep s' with
           | f :: fs => String c f :: fs
           | [] => [String c EmptyString]
           end
  end.

(** [QStringList::join(sep)]. *)
Fixpoint join (sep : ascii) (fields : list QString) : QString :=
  match fields with
  | [] => EmptyString
  | [f] => f
  | f :: fs => f ++ String sep (join sep fs)
  end.

(** [QString::section(sep, start, end)] with the default flags: the
    string is cut at every [sep] (empty fields count), negative indices
    count from the right, and the fields [start..end] are returned with
    the separators between them. *)
Definition section (sep : ascii) (start end_ : Z) (s : QString) : QString :=
  let sections := split sep s in
  let sectionsSize := Z.of_nat (List.length sections) in
  let start := if start <? 0 then start + sectionsSize else start in
  let end_ := if end_ <? 0 then end_ + sectionsSize else end_ in
  if (start >=? sectionsSize) || (end_ <? 0) || (start >? end_) then EmptyString
  else
    let first_i := Z.to_nat (Z.max start 0) in
    let last_i := Z.to_nat end_ in
    join sep (take (S last_i - first_i) (drop first_i sections)).

(** [QString::remove(0, 1)]. *)
Definition remove_first (s : QString) : QString :=
  match s with
  | EmptyString => EmptyString
  | String _ s' => s'
  end.

(** [QString::replace(before, after)] for a one-character [before]. *)
Fixpoint replace (before : ascii) (after : QString) (s : QString) : QString :=
  match s with
  | EmptyString => EmptyString
  | String c s' =>
      if Ascii.eqb c before then after ++ replace before after s'
      else String c (replace before after s')
  end.

(** Case mapping of a QChar, on the ASCII letters. *)
Definition toLowerChar (c : ascii) : ascii :=
  let n := N_of_ascii c in
  if ((65 <=? n) && (n <=? 90))%N then ascii_of_N (n + 32) else c.

(** [QString::toLower]. *)
Fixpoint toLower (s : QString) : QString :=
  match s with
  | EmptyString => EmptyString
  | String c s' => String (toLowerChar c) (toLower s')
  end.

(** [QString::compare(a, b, Qt::CaseInsensitive)]: negative, zero or
    positive as the case-folded [a] is less than, equal to or greater
    than the case-folded [b]. *)
Fixpoint compare_folded (a b : QString) : Z :=
  match a, b with
  | EmptyString, EmptyString => 0
  | EmptyString, String _ _ => -1
  | String _ _, EmptyString => 1
  | String x a', String y b' =>
      let d := Z.of_N (N_of_ascii x) - Z.of_N (N_of_ascii y) in
      if d =? 0 then compare_folded a' b' else d
  end.

Definition compare_ci (a b : QString) : Z :=
  compare_folded (toLower a) (toLower b).

(** [QString::contains(QChar)]. *)
Fixpoint hasChar (c : ascii) (s : QString) : bool :=
  match s with
  | EmptyString => false
  | String x s' => Ascii.eqb x c || hasChar c s'
  end.

(** [QString::startsWith] and [QString::contains], case sensitive. *)
Fixpoint startsWith (s p : QString) : bool :=
  match p, s with
  | EmptyString, _ => true
  | String _ _, EmptyString => false
  | String y p', String x s' => Ascii.eqb x y && startsWith s' p'
  end.

Fixpoint contains (s p : QString) : bool :=
  startsWith s p ||
  match s with
  | EmptyString => false
  | String _ s' => contains s' p
  end.

(** [QString::contains(p, Qt::CaseInsensitive)]. *)
Definition contains_ci (s p : QString) : bool :=
  contains (toLower s) (toLower p).

(** *** Place markers: [QString::arg]

    A place marker is [%], an optional [L], and one or two decimal
    digits.  [arg] replaces every occurrence of the lowest numbered
    marker of the string; a string without marker is returned as it
    is. *)

Definition digitValue (c : ascii) : option nat :=
  let n := N_of_ascii c in
  if ((48 <=? n) && (n <=? 57))%N then Some (N.to_nat (n - 48)) else None.

(** The marker that starts right after a [%], if any: its number and
    the text after it. *)
Definition escapeNumber (s : QString) : option (nat * QString) :=
  match s with
  | String c1 s1 =>
      match digitValue c1 with
      | Some d1 =>
          match s1 with
          | String c2 s2 =>
              match digitValue c2 with
              | Some d2 => Some ((10 * d1 + d2)%nat, s2)
              | None => Some (d1, s1)
              end
          | EmptyString => Some (d1, s1)
          end
      | None => None
      end
  | EmptyString => None
  end.

Definition parseEscape (afterPercent : QString) : option (nat * QString) :=
  match afterPercent with
  | String c s' => if Ascii.eqb c "L" then escapeNumber s' else escapeNumber afterPercent
  | EmptyString => None
  end.

Definition min_opt (a : option nat) (b : nat) : option nat :=
  match a with
  | None => Some b
  | Some x => Some (Nat.min x b)
  end.

(** [findArgEscapes]: the lowest marker number of the string.  After a
    marker the scan resumes behind it; after a [%] that starts no marker
    it resumes at the next character. *)
Fixpoint findArgEscapes_fuel (fuel : nat) (s : QString) (acc : option nat) : option nat :=
  match fuel with
  | O => acc
  | S fuel' =>
      match s with
      | EmptyString => acc
      | String c s' =>
          if Ascii.eqb c "%" then
            match parseEscape s' with
            | Some (n, rest) => findArgEscapes_fuel fuel' rest (min_opt acc n)
            | None => findArgEscapes_fuel fuel' s' acc
            end
          else findArgEscapes_fuel fuel' s' acc
      end
  end.

Definition findArgEscapes (s : QString) : option nat :=
  findArgEscapes_fuel (String.length s) s None.

(** The text of a marker: what stands between the [%] and [rest]. *)
Definition escapeText (afterPercent rest : QString) : QString :=
  substring 0 (String.length afterPercent - String.length rest) afterPercent.

(** [replaceArgEscapes]: every marker numbered [min_escape] becomes [a];
    all other text, other markers included, is copied. *)
Fixpoint replaceArgEscapes_fuel (fuel : nat) (s : QString) (min_escape : nat) (a : QString) : QString :=
  match fuel with
  | O => s
  | S fuel' =>
      match s with
      | EmptyString => EmptyString
      | String c s' =>
          if Ascii.eqb c "%" then
            match parseEscape s' with
            | Some (n, rest) =>
                if Nat.eqb n min_escape
                then a ++ replaceArgEscapes_fuel fuel' rest min_escape a
                else String "%" (escapeText s' rest
                                 ++ replaceArgEscapes_fuel fuel' rest min_escape a)
            | None => String "%" (replaceArgEscapes_fuel fuel' s' min_escape a)
            end
          else String c (replaceArgEscapes_fuel fuel' s' min_escape a)
      end
  end.

(** [QString::arg(const QString &a)]. *)
Definition arg (a : QString) (s : QString) : QString :=
  match findArgEscapes s with
  | None => s
  | Some min_escape => replaceArgEscapes_fuel (String.length s) s min_escape a
  end.

End QtString.

Import QtString.

(** ** QVariant *)

Module QtVariant.

(** The variants the manager handles: the JSON values of [mod.json] and
    of [modSettings.json]. *)
Inductive QVariant : Type :=
  | VInvalid
  | VBool (b : bool)
  | VNumber (n : Z)
  | VString (s : QString)
  | VList (l : list QVariant)
  | VMap (m : gmap string QVariant).

(** [QVariant::toMap]: the map of a map variant, the empty map of any
    other variant. *)
Definition toMap (v : QVariant) : gmap string QVariant :=
  match v with
  | VMap m => m
  | _ => ∅
  end.

(** [QMap::value(key)]: the default-constructed (invalid) variant when
    the key is absent. *)
Definition value (key : QString) (m : gmap string QVariant) : QVariant :=
  default VInvalid (m !! key).

(** [QMap::contains(key)]. *)
Definition containsKey (key : QString) (m : gmap string QVariant) : bool :=
  bool_decide (is_Some (m !! key)).

End QtVariant.

Import QtVariant.

(** ** qint64 and double *)

Module QtNumber.

(** The value that a [qint64] holds after an addition: the sum modulo
    [2^64], in the range from [-2^63] to [2^63 - 1]. *)
Definition wrap_qint64 (z : Z) : Z :=
  (z + 2 ^ 63) mod 2 ^ 64 - 2 ^ 63.

(** The [double] that holds a [qint64]: the integer itself while it
    has at most 53 binary digits, else the nearest integer with 53
    significant digits, the even one of two that are equally near. *)
Definition toDouble (n : Z) : Z :=
  let a := Z.abs n in
  if a <? 2 ^ 53 then n
  else
    let e := Z.log2 a - 52 in
    let q := Z.shiftr a e in
    let r := a - Z.shiftl q e in
    let half := Z.shiftl 1 (e - 1) in
    let q := if (r >? half) || ((r =? half) && Z.odd q) then q + 1 else q in
    Z.sgn n * Z.shiftl q e.

(** The sizes that the loop
    [for(QDirIterator iter(...); iter.hasNext(); iter.next()) total += iter.fileInfo().size()]
    reads, given the sizes of the entries that the iterator yields: the
    loop reads before it steps, so it reads the size 0 of the empty
    [QFileInfo] first and never the size of the last entry. *)
Definition sizesRead (entries : list Z) : list Z :=
  match entries with
  | [] => []
  | _ :: _ => 0 :: removelast entries
  end.

End QtNumber.

Import QtNumber.

(** ** The helpers of the translation unit *)

Module Archive.

(** One iteration of the inner loop of [detectModArchive]: the mod
    directory of [file] when [file] is the manifest of that directory. *)
Definition manifestDir (folderLevel : Z) (file : QString) : option QString :=
  let filename := file in
  let modDirName := section "/" 0 folderLevel filename in
  if String.eqb filename (modDirName ++ "/mod.json") then Some modDirName else None.

(** The inner loop, [for(auto file : filesToExtract)], left by [return]
    at the first manifest. *)
Fixpoint searchLevel (folderLevel : Z) (filesToExtract : list QString) : option QString :=
  match filesToExtract with
  | [] => None
  | file :: files =>
      match manifestDir folderLevel file with
      | Some modDirName => Some modDirName
      | None => searchLevel folderLevel files
      end
  end.

(** The outer loop, [for(int folderLevel : {0, 1})]. *)
Fixpoint searchLevels (levels : list Z) (filesToExtract : list QString) : option QString :=
  match levels with
  | [] => None
  | folderLevel :: levels' =>
      match searchLevel folderLevel filesToExtract with
      | Some modDirName => Some modDirName
      | None => searchLevels levels' filesToExtract
      end
  end.

(** [detectModArchive], on the listing of the archive
    ([filesToExtract = ZipArchive::listFiles(path)]): the directory of
    the first manifest found, the empty string when there is none. *)
Definition detectModArchive (filesToExtract : list QString) : QString :=
  match searchLevels [0; 1] filesToExtract with
  | Some modDirName => modDirName
  | None => ""
  end.

End Archive.

Module Settings.

(** [writeValue(path, input, value)].  The recursion is on a shorter
    and shorter [path]; [fuel] bounds its depth. *)
Fixpoint writeValue_fuel (fuel : nat) (path : QString)
    (input : gmap string QVariant) (value : QVariant) : QVariant :=
  match fuel with
  | O => value
  | S fuel' =>
      if size path >? 1 then
        let entryName := section "/" 0 1 path in
        let remainder := "/" ++ section "/" 2 (-1) path in
        let entryName := remove_first entryName in
        VMap (<[entryName := writeValue_fuel fuel' remainder
                               (toMap (QtVariant.value entryName input)) value]> input)
      else value
  end.

Definition writeValue (path : QString) (input : gmap string QVariant)
    (value : QVariant) : QVariant :=
  writeValue_fuel (String.length path) path input value.

(** The key and the rest of the route that [writeValue] takes from a
    path. *)
Definition entryName (path : QString) : QString :=
  remove_first (section "/" 0 1 path).

Definition remainder (path : QString) : QString :=
  "/" ++ section "/" 2 (-1) path.

(** The keys of a path, with the addressing of [writeValue]: a path of
    more than one character names the entry [entryName path] of the
    current node and goes on below it with [remainder path]; a shorter
    path names the current node. *)
Fixpoint pathKeys_fuel (fuel : nat) (path : QString) : list QString :=
  match fuel with
  | O => []
  | S fuel' =>
      if size path >? 1 then entryName path :: pathKeys_fuel fuel' (remainder path)
      else []
  end.

Definition pathKeys (path : QString) : list QString :=
  pathKeys_fuel (String.length path) path.

(** Reading key by key: [node[k1][k2]...]. *)
Fixpoint lookupKeys (keys : list QString) (node : QVariant) : QVariant :=
  match keys with
  | [] => node
  | key :: keys' => lookupKeys keys' (QtVariant.value key (toMap node))
  end.

(** Reading a path of a document. *)
Definition readValue (path : QString) (node : QVariant) : QVariant :=
  lookupKeys (pathKeys path) node.

(** The entries beside the route [keys] are the same in [before] and
    [after], at every node of the route: same keys, same subtrees. *)
Fixpoint siblingsAlong (keys : list QString) (before after : gmap string QVariant) : Prop :=
  match keys with
  | [] => True
  | k :: keys' =>
      (∀ key : string, key ≠ k → after !! key = before !! key)
      ∧ siblingsAlong keys' (toMap (QtVariant.value k before))
                            (toMap (QtVariant.value k after))
  end.

Definition siblingsKept (path : QString) (before after : gmap string QVariant) : Prop :=
  siblingsAlong (pathKeys path) before after.

(** The path of a list of keys: [/k1/k2/...]. *)
Fixpoint route (keys : list QString) : QString :=
  match keys with
  | [] => ""
  | key :: keys' => "/" ++ key ++ route keys'
  end.

(** The path that [doEnableMod] writes for a mod name. *)
Definition activePath (mod_ : QString) : QString :=
  "/activeMods/" ++ replace "." "/mods/" mod_ ++ "/active".

(** The keys under which the settings document keeps the flag of a
    mod: [activeMods], the names of the mod and of its submods with
    [mods] between them, and [active]. *)
Fixpoint submodKeys (fields : list QString) : list QString :=
  match fields with
  | [] => []
  | [f] => [f]
  | f :: rest => f :: "mods" :: submodKeys rest
  end.

Definition activeKeys (mod_ : QString) : list QString :=
  "activeMods" :: (submodKeys (split "." mod_) ++ ["active"])%list.

End Settings.

(** ** The services the manager calls *)

(** [CModList] and [CModEntry] (launcher/modManager/cmodlist.h), as far
    as [CModManager] uses them. *)
Class ModListApi := {
  CModList : Type;
  CModEntry : Type;
  (* queries of CModList *)
  getMod : CModList → QString → CModEntry;
  hasMod : CModList → QString → bool;
  getModList : CModList → list QString;
  (* queries of CModEntry *)
  isEnabled : CModEntry → bool;
  isDisabled : CModEntry → bool;
  isInstalled : CModEntry → bool;
  isAvailable : CModEntry → bool;
  isSubmod : CModEntry → bool;
  isCompatible : CModEntry → bool;
  (* [mod.getValue(key).toStringList()] *)
  getValue_toStringList : CModEntry → QString → QStringList;
  (* updates of CModList *)
  setLocalModList : gmap string QVariant → CModList → CModList;
  setModSettings : QVariant → CModList → CModList;
  modChanged : QString → CModList → CModList;
  reloadRepositories : CModList → CModList;
}.

(** The file system, the archive codec and the resource resolver.  A
    [QDir] is represented by its path; a [World] is everything outside
    the manager's own fields. *)
Class Platform := {
  World : Type;
  ResourcePath : Type;
  (* the build: is the macro VCMI_IOS defined? *)
  VCMI_IOS : bool;
  (* QFile, QDir *)
  QFile_exists : World → QString → bool;
  QFile_rename : QString → QString → World → bool * World;
  QDir_exists : World → QString → bool;
  QDir_cdUp : World → QString → option QString;
  QDir_dirName : QString → QString;
  QDir_absolutePath : World → QString → QString;
  QDir_removeRecursively : QString → World → bool * World;
  (* the sizes of the entries that a QDirIterator over a directory and
     its subdirectories yields, in the order of the iteration *)
  QDirIterator_sizes : World → QString → list Z;
  (* ZipArchive *)
  ZipArchive_listFiles : World → QString → list QString;
  ZipArchive_extract : QString → QString → list QString → World → bool * World;
  (* JsonUtils *)
  JsonFromFile : World → QString → QVariant;
  JsonToFile : QString → gmap string QVariant → World → World;
  (* VCMIDirs, CLauncherDirs *)
  userConfigPath_modSettings : World → QString;
  modsPath : World → QString;
  (* CModHandler, CModInfo, CResourceHandler *)
  getAllMods : World → list QString;
  getModFile : QString → ResourcePath;
  getModDir : QString → ResourcePath;
  modsDirectory : QString → ResourcePath;
  existsResource : World → ResourcePath → bool;
  getResourceName : World → ResourcePath → QString;
  is_absolute : QString → bool;
  updateFilteredFiles : World → World;
}.

(** ** CModManager *)

Module Manager.

Section WithServices.

Context {ML : ModListApi} {PF : Platform}.

(** The fields of [CModManager]. *)
Record CModManager := mkCModManager {
  modList : CModList;
  localMods : gmap string QVariant;
  modSettings : gmap string QVariant;
  recentErrors : QStringList;
}.

Definition set_modList (ml : CModList) (m : CModManager) : CModManager :=
  mkCModManager ml (localMods m) (modSettings m) (recentErrors m).

Definition set_localMods (lm : gmap string QVariant) (m : CModManager) : CModManager :=
  mkCModManager (modList m) lm (modSettings m) (recentErrors m).

Definition set_modSettings (ms : gmap string QVariant) (m : CModManager) : CModManager :=
  mkCModManager (modList m) (localMods m) ms (recentErrors m).

Definition set_recentErrors (errs : QStringList) (m : CModManager) : CModManager :=
  mkCModManager (modList m) (localMods m) (modSettings m) errs.

(** [QMap::operator[]] of a non-const map: an absent key is inserted
    with the invalid variant. *)
Definition index (key : QString) (m : gmap string QVariant) :
    QVariant * gmap string QVariant :=
  match m !! key with
  | Some v => (v, m)
  | None => (VInvalid, <[key := VInvalid]> m)
  end.

(** [QStringList::contains]. *)
Definition listContains (l : QStringList) (s : QString) : bool :=
  existsb (String.eqb s) l.

Definition settingsPath (w : World) : QString := userConfigPath_modSettings w.

Definition loadModSettings (m : CModManager) (w : World) : CModManager :=
  let ms := toMap (JsonFromFile w (settingsPath w)) in
  let '(active, ms) := index "activeMods" ms in
  set_modList (setModSettings active (modList m)) (set_modSettings ms m).

(** The entry of [localMods] that [loadMods] builds for [modname]. *)
Definition localModEntry (w : World) (modname : QString) : QVariant :=
  let resID := getModFile modname in
  let resDir := getModDir modname in
  let total :=
    if existsResource w resDir
    then fold_left (λ total size, wrap_qint64 (total + size))
           (sizesRead (QDirIterator_sizes w (getResourceName w resDir))) 0
    else 0 in
  let name := getResourceName w resID in
  let json := toMap (JsonFromFile w name) in
  let json := <["localSizeBytes" := VNumber (toDouble total)]> json in
  let json := if negb (is_absolute name) then <["storedLocaly" := VBool true]> json else json in
  VMap json.

(** The loop of [loadMods] over the installed mods. *)
Fixpoint loadModsLoop (w : World) (installedMods : list QString)
    (acc : gmap string QVariant) : gmap string QVariant :=
  match installedMods with
  | [] => acc
  | modname :: rest =>
      if existsResource w (getModFile modname)
      then loadModsLoop w rest (<[toLower modname := localModEntry w modname]> acc)
      else loadModsLoop w rest acc
  end.

Definition loadMods (m : CModManager) (w : World) : CModManager :=
  let installedMods := getAllMods w in
  let lm := loadModsLoop w installedMods ∅ in
  set_modList (setLocalModList lm (modList m)) (set_localMods lm m).

(** The text [QString("%1: %2").arg(modname).arg(message)]. *)
Definition errorText (modname message : QString) : QString :=
  arg message (arg modname "%1: %2").

Definition addError (modname message : QString) (m : CModManager) : bool * CModManager :=
  (false, set_recentErrors (recentErrors m ++ [errorText modname message])%list m).

Definition getErrors (m : CModManager) : QStringList * CModManager :=
  let ret := recentErrors m in
  (ret, set_recentErrors [] m).

(** A run of calls of [addError]. *)
Fixpoint addErrors (errors : list (QString * QString)) (m : CModManager) : CModManager :=
  match errors with
  | [] => m
  | (modname, message) :: rest => addErrors rest (addError modname message m).2
  end.

Definition canInstallMod (modname : QString) (m : CModManager) : bool * CModManager :=
  let mod_ := getMod (modList m) modname in
  if isSubmod mod_ then addError modname "Can not install submod" m
  else if isInstalled mod_ then addError modname "Mod is already installed" m
  else if negb (isAvailable mod_) then addError modname "Mod is not available" m
  else (true, m).

Definition canUninstallMod (modname : QString) (m : CModManager) : bool * CModManager :=
  let mod_ := getMod (modList m) modname in
  if isSubmod mod_ then addError modname "Can not uninstall submod" m
  else if negb (isInstalled mod_) then addError modname "Mod is not installed" m
  else (true, m).

(** The three loops of [canEnableMod] and the loop of [canDisableMod]:
    the message of the first [return addError(modname, message)] they
    reach, if they reach one. *)
Fixpoint dependsLoop (ml : CModList) (entries : QStringList) : option QString :=
  match entries with
  | [] => None
  | modEntry :: rest =>
      if negb (hasMod ml modEntry)
      then Some (arg modEntry "Required mod %1 is missing")
      else if negb (isEnabled (getMod ml modEntry))
      then Some (arg modEntry "Required mod %1 is not enabled")
      else dependsLoop ml rest
  end.

Fixpoint reverseConflictLoop (ml : CModList) (modname : QString)
    (entries : list QString) : option QString :=
  match entries with
  | [] => None
  | modEntry :: rest =>
      let mod_ := getMod ml modEntry in
      if isEnabled mod_ && listContains (getValue_toStringList mod_ "conflicts") modname
      then Some (arg modEntry "This mod conflicts with %1")
      else reverseConflictLoop ml modname rest
  end.

Fixpoint conflictLoop (ml : CModList) (entries : QStringList) : option QString :=
  match entries with
  | [] => None
  | modEntry :: rest =>
      if hasMod ml modEntry && isEnabled (getMod ml modEntry)
      then Some (arg modEntry "This mod conflicts with %1")
      else conflictLoop ml rest
  end.

Fixpoint dependentsLoop (ml : CModList) (modname : QString)
    (entries : list QString) : option QString :=
  match entries with
  | [] => None
  | modEntry :: rest =>
      let current := getMod ml modEntry in
      if listContains (getValue_toStringList current "depends") modname && isEnabled current
      then Some (arg modEntry "This mod is needed to run %1")
      else dependentsLoop ml modname rest
  end.

Definition canEnableMod (modname : QString) (m : CModManager) : bool * CModManager :=
  let ml := modList m in
  let mod_ := getMod ml modname in
  if isEnabled mod_ then addError modname "Mod is already enabled" m
  else if negb (isInstalled mod_) then addError modname "Mod must be installed first" m
  else if negb (isCompatible mod_)
  then addError modname
         "Mod is not compatible, please update VCMI and checkout latest mod revisions" m
  else
    match dependsLoop ml (getValue_toStringList mod_ "depends") with
    | Some message => addError modname message m
    | None =>
        match reverseConflictLoop ml modname (getModList ml) with
        | Some message => addError modname message m
        | None =>
            match conflictLoop ml (getValue_toStringList mod_ "conflicts") with
            | Some message => addError modname message m
            | None => (true, m)
            end
        end
    end.

Definition canDisableMod (modname : QString) (m : CModManager) : bool * CModManager :=
  let ml := modList m in
  let mod_ := getMod ml modname in
  if isDisabled mod_ then addError modname "Mod is already disabled" m
  else if negb (isInstalled mod_) then addError modname "Mod must be installed first" m
  else
    match dependentsLoop ml modname (getModList ml) with
    | Some message => addError modname message m
    | None => (true, m)
    end.

Definition doEnableMod (mod_ : QString) (on : bool) (m : CModManager) (w : World) :
    bool * CModManager * World :=
  let path := mod_ in
  let path := "/activeMods/" ++ replace "." "/mods/" path ++ "/active" in
  let ms := toMap (Settings.writeValue path (modSettings m) (VBool on)) in
  let '(active, ms) := index "activeMods" ms in
  let ml := setModSettings active (modList m) in
  let ml := modChanged mod_ ml in
  let w := JsonToFile (settingsPath w) ms w in
  (true, set_modList ml (set_modSettings ms m), w).

(** [removeModDir]: the checks on the path, in the order of the source,
    and the recursive removal behind them.  [VCMI_IOS] leaves out the two
    checks on the application's directory. *)
Definition removeModDir (path : QString) (w : World) : bool * World :=
  let checkDir := path in
  let dir := path in
  match QDir_cdUp w checkDir with
  | None => (false, w)
  | Some checkDir =>
      if negb (compare_ci "Mods" (QDir_dirName checkDir) =? 0) then (false, w)
      else
        let afterEndif :=
          if negb (contains_ci (QDir_absolutePath w dir) "Mods") then (false, w)
          else QDir_removeRecursively dir w in
        if VCMI_IOS then afterEndif
        else
          match QDir_cdUp w checkDir with
          | None => (false, w)
          | Some checkDir =>
              if negb (compare_ci "vcmi" (QDir_dirName checkDir) =? 0) then (false, w)
              else if negb (contains_ci (QDir_absolutePath w dir) "vcmi") then (false, w)
              else afterEndif
          end
  end.

(** [doInstallMod] behind its two first checks: the archive is
    inspected, extracted and registered. *)
Definition installFromArchive (modname archivePath : QString) (m : CModManager) (w : World) :
    bool * CModManager * World :=
  let destDir := modsPath w ++ "/" in
  let filesToExtract := ZipArchive_listFiles w archivePath in
  let modDirName := Archive.detectModArchive filesToExtract in
  if size modDirName =? 0
  then (addError modname "Mod archive is invalid or corrupted" m, w)
  else
    (* the extraction runs to its end before the manager goes on *)
    let '(extracted, w) := ZipArchive_extract archivePath destDir filesToExtract w in
    if negb extracted
    then
      let '(_, w) := removeModDir (destDir ++ modDirName) w in
      (addError modname "Failed to extract mod data" m, w)
    else
      let '(rc, w) := QFile_rename (destDir ++ modDirName) (destDir ++ modname) w in
      let upperLevel := section "/" 0 0 modDirName in
      let w :=
        if negb (String.eqb upperLevel modDirName)
        then snd (removeModDir (destDir ++ upperLevel) w)
        else w in
      let w := updateFilteredFiles w in
      let m := loadMods m w in
      let m := set_modList (reloadRepositories (modList m)) m in
      (true, m, w).

Definition doInstallMod (modname archivePath : QString) (m : CModManager) (w : World) :
    bool * CModManager * World :=
  if negb (QFile_exists w archivePath)
  then (addError modname "Mod archive is missing" m, w)
  else if containsKey modname (localMods m)
  then (addError modname "Mod with such name is already installed" m, w)
  else installFromArchive modname archivePath m w.

Definition doUninstallMod (modname : QString) (m : CModManager) (w : World) :
    bool * CModManager * World :=
  let resID := modsDirectory modname in
  let modDir := getResourceName w resID in
  if negb (QDir_exists w modDir)
  then (addError modname "Data with this mod was not found" m, w)
  else
    let '(removed, w) := removeModDir modDir w in
    if negb removed
    then (addError modname
            ("Mod is located in protected directory, please remove it manually:"
             ++ String "010" (QDir_absolutePath w modDir)) m, w)
    else
      let w := updateFilteredFiles w in
      let m := loadMods m w in
      let m := set_modList (reloadRepositories (modList m)) m in
      (true, m, w).

(** [a && b] of the public operations: [b] runs only when [a] returned
    true. *)
Definition andThen (a : CModManager → bool * CModManager)
    (b : CModManager → World → bool * CModManager * World)
    (m : CModManager) (w : World) : bool * CModManager * World :=
  let '(ok, m) := a m in
  if ok then b m w else (false, m, w).

Definition installMod (modname archivePath : QString) :=
  andThen (canInstallMod modname) (doInstallMod modname archivePath).

Definition uninstallMod (modname : QString) :=
  andThen (canUninstallMod modname) (doUninstallMod modname).

Definition enableMod (modname : QString) :=
  andThen (canEnableMod modname) (doEnableMod modname true).

Definition disableMod (modname : QString) :=
  andThen (canDisableMod modname) (doEnableMod modname false).

(** The four public transitions, their validators and their runs. *)
Inductive Transition :=
  | Install (modname archivePath : QString)
  | Uninstall (modname : QString)
  | Enable (modname : QString)
  | Disable (modname : QString).

Definition validator (t : Transition) : CModManager → bool * CModManager :=
  match t with
  | Install modname _ => canInstallMod modname
  | Uninstall modname => canUninstallMod modname
  | Enable modname => canEnableMod modname
  | Disable modname => canDisableMod modname
  end.

Definition perform (t : Transition) : CModManager → World → bool * CModManager * World :=
  match t with
  | Install modname archivePath => installMod modname archivePath
  | Uninstall modname => uninstallMod modname
  | Enable modname => enableMod modname
  | Disable modname => disableMod modname
  end.

(** The constructor: [loadMods(); loadModSettings();]. *)
Definition create (ml : CModList) (w : World) : CModManager :=
  let m := mkCModManager ml ∅ ∅ [] in
  loadModSettings (loadMods m w) w.

(** Every key of [localMods] is in lower case. *)
Definition lowerKeys (m : CModManager) : Prop :=
  ∀ key : QString, is_Some (localMods m !! key) → toLower key = key.

End WithServices.

Arguments CModManager {ML}.
Arguments mkCModManager {ML}.

End Manager.

(** ** An instance of the services

    A table of mod entries for [CModList] and a list of directories and
    archives for the world, to run the manager on examples. *)

Module Reference.

Record Entry := mkEntry {
  e_name : QString;
  e_enabled : bool;
  e_disabled : bool;
  e_installed : bool;
  e_available : bool;
  e_submod : bool;
  e_compatible : bool;
  e_depends : QStringList;
  e_conflicts : QStringList;
}.

Definition unknownEntry (name : QString) : Entry :=
  mkEntry name false false false false false true [] [].

Fixpoint findEntry (table : list Entry) (name : QString) : option Entry :=
  match table with
  | [] => None
  | e :: rest => if String.eqb (e_name e) name then Some e else findEntry rest name
  end.

Definition entryValue (e : Entry) (key : QString) : QStringList :=
  if String.eqb key "depends" then e_depends e
  else if String.eqb key "conflicts" then e_conflicts e
  else [].

#[export] Instance modListTable : ModListApi := {|
  CModList := list Entry;
  CModEntry := Entry;
  getMod := fun table name => default (unknownEntry name) (findEntry table name);
  hasMod := fun table name => bool_decide (is_Some (findEntry table name));
  getModList := fun table => map e_name table;
  isEnabled := e_enabled;
  isDisabled := e_disabled;
  isInstalled := e_installed;
  isAvailable := e_available;
  isSubmod := e_submod;
  isCompatible := e_compatible;
  getValue_toStringList := entryValue;
  setLocalModList := fun _ table => table;
  setModSettings := fun _ table => table;
  modChanged := fun _ table => table;
  reloadRepositories := fun table => table;
|}.

Record Disk := mkDisk {
  directories : list QString;
  archives : list (QString * list QString);
  settingsFile : gmap string QVariant;
}.

Definition parentPath (path : QString) : QString :=
  join "/" (removelast (split "/" path)).

Definition lastField (path : QString) : QString :=
  List.last (split "/" path) "".

Definition isDirectory (d : Disk) (path : QString) : bool :=
  existsb (String.eqb path) (directories d).

Definition archiveListing (d : Disk) (path : QString) : option (list QString) :=
  snd <$> List.find (λ a, String.eqb (fst a) path) (archives d).

Definition below (dir path : QString) : bool :=
  String.eqb path dir || startsWith path (dir ++ "/").

#[export] Instance disk : Platform := {|
  World := Disk;
  ResourcePath := QString;
  VCMI_IOS := false;
  QFile_exists := fun d path => bool_decide (is_Some (archiveListing d path));
  QFile_rename := fun from to d =>
    (isDirectory d from,
     mkDisk (map (λ p, if String.eqb p from then to else p) (directories d))
            (archives d) (settingsFile d));
  QDir_exists := isDirectory;
  QDir_cdUp := fun d path =>
    if isDirectory d (parentPath path) then Some (parentPath path) else None;
  QDir_dirName := lastField;
  QDir_absolutePath := fun _ path => path;
  QDir_removeRecursively := fun dir d =>
    (true, mkDisk (List.filter (λ p, negb (below dir p)) (directories d))
                  (archives d) (settingsFile d));
  QDirIterator_sizes := fun _ _ => [];
  ZipArchive_listFiles := fun d path => default [] (archiveListing d path);
  ZipArchive_extract := fun archive dest files d =>
    let extracted := map (λ f, dest ++ section "/" 0 0 f) files in
    (true, mkDisk (app (directories d) extracted) (archives d) (settingsFile d));
  JsonFromFile := fun d _ => VMap (settingsFile d);
  JsonToFile := fun _ doc d => mkDisk (directories d) (archives d) doc;
  userConfigPath_modSettings := fun _ => "/home/user/.config/vcmi/modSettings.json";
  modsPath := fun _ => "/home/user/vcmi/Mods";
  getAllMods := fun d =>
    List.filter (λ n, isDirectory d ("/home/user/vcmi/Mods/" ++ n))
      (map lastField (directories d));
  getModFile := fun name => "/home/user/vcmi/Mods/" ++ name;
  getModDir := fun name => "/home/user/vcmi/Mods/" ++ name;
  modsDirectory := fun name => "/home/user/vcmi/Mods/" ++ name;
  existsResource := isDirectory;
  getResourceName := fun _ path => path;
  is_absolute := fun path => startsWith path "/";
  updateFilteredFiles := fun d => d;
|}.

(** The same disk with a settings file that cannot be written:
    [JsonToFile] leaves it as it is. *)
Definition readOnlySettings : Platform := {|
  World := Disk;
  ResourcePath := QString;
  VCMI_IOS := false;
  QFile_exists := QFile_exists (Platform := disk);
  QFile_rename := QFile_rename (Platform := disk);
  QDir_exists := QDir_exists (Platform := disk);
  QDir_cdUp := QDir_cdUp (Platform := disk);
  QDir_dirName := QDir_dirName (Platform := disk);
  QDir_absolutePath := QDir_absolutePath (Platform := disk);
  QDir_removeRecursively := QDir_removeRecursively (Platform := disk);
  QDirIterator_sizes := QDirIterator_sizes (Platform := disk);
  ZipArchive_listFiles := ZipArchive_listFiles (Platform := disk);
  ZipArchive_extract := ZipArchive_extract (Platform := disk);
  JsonFromFile := JsonFromFile (Platform := disk);
  JsonToFile := fun _ _ d => d;
  userConfigPath_modSettings := userConfigPath_modSettings (Platform := disk);
  modsPath := modsPath (Platform := disk);
  getAllMods := getAllMods (Platform := disk);
  getModFile := getModFile (Platform := disk);
  getModDir := getModDir (Platform := disk);
  modsDirectory := modsDirectory (Platform := disk);
  existsResource := existsResource (Platform := disk);
  getResourceName := getResourceName (Platform := disk);
  is_absolute := is_absolute (Platform := disk);
  updateFilteredFiles := updateFilteredFiles (Platform := disk);
|}.

(** Three packages: [a] is installed and switched off, needs [b] and
    excludes [c]; [b] is enabled; [c] is installed and switched off. *)
Definition tableEnable : @CModList modListTable :=
  [ mkEntry "a" false true true true false true ["b"] ["c"];
    mkEntry "b" true false true true false true [] [];
    mkEntry "c" false true true true false true [] [] ].

(** Two enabled packages: [a] needs [b]. *)
Definition tableDependent : @CModList modListTable :=
  [ mkEntry "a" true false true true false true ["b"] [];
    mkEntry "b" true false true true false true [] [] ].

(** No package at all. *)
Definition tableEmpty : @CModList modListTable := [].

(** A package that a repository offers, not installed yet. *)
Definition tableAvailable : @CModList modListTable :=
  [ mkEntry "newmod" false false false true false true [] [] ].

Definition managerOf (table : @CModList modListTable) : Manager.CModManager :=
  Manager.mkCModManager table ∅ ∅ [].

(** A home directory with the mods [b] and [Foo], and two archives: one
    with its manifest at the root, one with its manifest in a folder. *)
Definition home : @World disk :=
  mkDisk
    [ "/home"; "/home/user"; "/home/user/Documents"; "/home/user/vcmi";
      "/home/user/vcmi/Mods"; "/home/user/vcmi/Mods/b"; "/home/user/vcmi/Mods/Foo" ]
    [ ("/tmp/root.zip", ["mod.json"; "content/readme.txt"]);
      ("/tmp/foo.zip", ["Foo/mod.json"]) ]
    ∅.

End Reference.

(** ** Notions of the further properties *)

Module Notions.

(** Two lists of keys part at some position: up to it they are the same,
    at it they hold different keys.  Neither is then a prefix of the
    other. *)
Fixpoint diverge (keys keys' : list QString) : Prop :=
  match keys, keys' with
  | k :: rest, k' :: rest' => k ≠ k' ∨ (k = k' ∧ diverge rest rest')
  | _, _ => False
  end.

(** The fields of a path behind its leading separator: the keys that
    a reader of the document follows for the path, whatever the writer
    does with it. *)
Definition segments (path : QString) : list QString :=
  match split "/" path with
  | EmptyString :: fields => fields
  | fields => fields
  end.

(** Reading a path of a document field by field. *)
Definition readPath (path : QString) (node : QVariant) : QVariant :=
  Settings.lookupKeys (segments path) node.

(** The number of separators of a string. *)
Fixpoint countChar (c : ascii) (s : QString) : nat :=
  match s with
  | EmptyString => 0%nat
  | String x s' => ((if Ascii.eqb x c then 1 else 0) + countChar c s')%nat
  end.

Section WithServices.

Context {ML : ModListApi}.

(** The settings document has the entry [activeMods]. *)
Definition hasActiveMods (m : Manager.CModManager) : Prop :=
  is_Some (Manager.modSettings m !! "activeMods").

(** A transition that ends with a reload of the installed mods. *)
Definition reloads (t : Manager.Transition) : bool :=
  match t with
  | Manager.Install _ _ | Manager.Uninstall _ => true
  | Manager.Enable _ | Manager.Disable _ => false
  end.

End WithServices.

Section WithPlatform.

Context {ML : ModListApi} {PF : Platform}.

(** The manager after the reload that ends an install and an
    uninstall: [loadMods(); modList->reloadRepositories();] in the
    world [w]. *)
Definition reloaded (m : Manager.CModManager) (w : World) : Manager.CModManager :=
  let m := Manager.loadMods m w in
  Manager.set_modList (reloadRepositories (Manager.modList m)) m.

(** The manager after [doEnableMod] has written the flag [on] of
    [mod_]: the settings with the flag, the mod list told of them and
    of the change. *)
Definition switched (mod_ : QString) (on : bool) (m : Manager.CModManager) :
    Manager.CModManager :=
  let ms := toMap (Settings.writeValue (Settings.activePath mod_)
                     (Manager.modSettings m) (VBool on)) in
  let ml := modChanged mod_
              (setModSettings (QtVariant.value "activeMods" ms) (Manager.modList m)) in
  Manager.set_modList ml (Manager.set_modSettings ms m).

End WithPlatform.

End Notions.

Module MoreExamples.

Import Reference.

(** [a] needs [b], which no repository and no folder knows. *)
Definition tableMissing : @CModList modListTable :=
  [ mkEntry "a" false true true true false true ["b"] [] ].

(** [a] needs [b], which is installed and switched off. *)
Definition tableSwitchedOff : @CModList modListTable :=
  [ mkEntry "a" false true true true false true ["b"] [];
    mkEntry "b" false true true true false true [] [] ].

(** The enabled [c] excludes [a]; [a] itself excludes nothing. *)
Definition tableReverse : @CModList modListTable :=
  [ mkEntry "a" false true true true false true [] [];
    mkEntry "c" true false true true false true [] ["a"] ].

(** [a] excludes the enabled [c]. *)
Definition tableConflict : @CModList modListTable :=
  [ mkEntry "a" false true true true false true [] ["c"];
    mkEntry "c" true false true true false true [] [] ].

(** [a] needs [b], which the list shows as enabled and not installed. *)
Definition tableLoose : @CModList modListTable :=
  [ mkEntry "a" false true true true false true ["b"] [];
    mkEntry "b" true false false true false true [] [] ].

(** The disk with three entries of 100, 200 and 300 bytes under every
    mod directory and with manifests found under relative paths. *)
Definition sizedDisk : Platform := {|
  World := Disk;
  ResourcePath := QString;
  VCMI_IOS := false;
  QFile_exists := QFile_exists (Platform := disk);
  QFile_rename := QFile_rename (Platform := disk);
  QDir_exists := QDir_exists (Platform := disk);
  QDir_cdUp := QDir_cdUp (Platform := disk);
  QDir_dirName := QDir_dirName (Platform := disk);
  QDir_absolutePath := QDir_absolutePath (Platform := disk);
  QDir_removeRecursively := QDir_removeRecursively (Platform := disk);
  QDirIterator_sizes := fun _ _ => [100; 200; 300];
  ZipArchive_listFiles := ZipArchive_listFiles (Platform := disk);
  ZipArchive_extract := ZipArchive_extract (Platform := disk);
  JsonFromFile := JsonFromFile (Platform := disk);
  JsonToFile := JsonToFile (Platform := disk);
  userConfigPath_modSettings := userConfigPath_modSettings (Platform := disk);
  modsPath := modsPath (Platform := disk);
  getAllMods := getAllMods (Platform := disk);
  getModFile := getModFile (Platform := disk);
  getModDir := getModDir (Platform := disk);
  modsDirectory := modsDirectory (Platform := disk);
  existsResource := existsResource (Platform := disk);
  getResourceName := getResourceName (Platform := disk);
  is_absolute := fun _ => false;
  updateFilteredFiles := updateFilteredFiles (Platform := disk);
|}.

(** A disk with two folders whose names differ in case only. *)
Definition twins : @World disk :=
  mkDisk
    [ "/home"; "/home/user"; "/home/user/vcmi"; "/home/user/vcmi/Mods";
      "/home/user/vcmi/Mods/Foo"; "/home/user/vcmi/Mods/foo" ]
    [ ("/tmp/nested.zip", ["pack/readme.txt"; "pack/Foo/mod.json"]);
      ("/tmp/foo.zip", ["Foo/mod.json"]) ]
    ∅.

End MoreExamples.

(** * Properties *)

(** ** Strings *)

Section StringFacts.

Local Open Scope nat_scope.

Lemma append_String (c : ascii) (a b : QString) :
  String c a ++ b = String c (a ++ b).
Proof. reflexivity. Qed.

Lemma append_empty_l (b : QString) : "" ++ b = b.
Proof. reflexivity. Qed.

Lemma length_append (a b : QString) :
  String.length (a ++ b) = String.length a + String.length b.
Proof.
  induction a as [|c a IH]; [done |].
  rewrite append_String. simpl. by rewrite IH.
Qed.

Lemma append_empty_r (a : QString) : a ++ "" = a.
Proof. induction a as [|c a IH]; [done |]. by rewrite append_String, IH. Qed.

Lemma append_assoc (a b c : QString) : (a ++ b) ++ c = a ++ (b ++ c).
Proof. induction a as [|x a IH]; [done |]. by rewrite !append_String, IH. Qed.

Lemma split_cons (sep : ascii) (s : QString) :
  ∃ f fs, split sep s = f :: fs.
Proof.
  induction s as [|c s IH]; simpl; [by eauto |].
  destruct (Ascii.eqb c sep); [by eauto |].
  destruct IH as (f & fs & ->). by eauto.
Qed.

Lemma join_cons2 (sep : ascii) (f g : QString) (fs : list QString) :
  join sep (f :: g :: fs) = f ++ String sep (join sep (g :: fs)).
Proof. reflexivity. Qed.

(** The fields of a string, joined again, are the string. *)
Lemma join_split (sep : ascii) (s : QString) : join sep (split sep s) = s.
Proof.
  induction s as [|c s IH]; simpl; [done |].
  destruct (Ascii.eqb_spec c sep) as [->|Hne].
  - destruct (split_cons sep s) as (f & fs & E). rewrite E in IH |- *.
    rewrite join_cons2, append_empty_l. by rewrite IH.
  - destruct (split_cons sep s) as (f & fs & E). rewrite E in IH |- *.
    destruct fs as [|g fs].
    + simpl in *. by rewrite IH.
    + rewrite join_cons2 in IH |- *. rewrite append_String. by rewrite IH.
Qed.

(** A field without separator in front of a separator is the first
    field. *)
Lemma split_app_sep (sep : ascii) (k r : QString) :
  hasChar sep k = false →
  split sep (k ++ String sep r) = k :: split sep r.
Proof.
  induction k as [|c k IH]; intros H.
  - rewrite append_empty_l. simpl. by rewrite Ascii.eqb_refl.
  - simpl in H. apply orb_false_iff in H as [Hc Hk].
    rewrite append_String. simpl. by rewrite Hc, (IH Hk).
Qed.

Lemma split_no_sep (sep : ascii) (k : QString) :
  hasChar sep k = false → split sep k = [k].
Proof.
  induction k as [|c k IH]; simpl; intros H; [done |].
  apply orb_false_iff in H as [Hc Hk]. by rewrite Hc, (IH Hk).
Qed.

Lemma section_0_0 (sep : ascii) (s : QString) :
  section sep 0 0 s = join sep (take 1 (split sep s)).
Proof.
  unfold section. destruct (split_cons sep s) as (f & fs & ->).
  change (0 <? 0)%Z with false. change (1 <? 0)%Z with false. cbv iota.
  cbn [List.length]. rewrite Nat2Z.inj_succ, Z.geb_leb.
  rewrite (proj2 (Z.leb_gt _ _)) by lia. reflexivity.
Qed.

Lemma section_0_1 (sep : ascii) (s : QString) :
  section sep 0 1 s = join sep (take 2 (split sep s)).
Proof.
  unfold section. destruct (split_cons sep s) as (f & fs & ->).
  change (0 <? 0)%Z with false. change (1 <? 0)%Z with false. cbv iota.
  cbn [List.length]. rewrite Nat2Z.inj_succ, Z.geb_leb.
  rewrite (proj2 (Z.leb_gt _ _)) by lia. reflexivity.
Qed.

Lemma section_2_end (sep : ascii) (s : QString) :
  section sep 2 (-1) s = join sep (drop 2 (split sep s)).
Proof.
  unfold section. set (l := split sep s).
  change (2 <? 0)%Z with false. change (-1 <? 0)%Z with true. cbv iota.
  rewrite Z.geb_leb, Z.gtb_ltb.
  destruct (Z.leb_spec (Z.of_nat (List.length l)) 2) as [Hge|Hlt]; simpl.
  - rewrite drop_ge by lia. done.
  - rewrite (proj2 (Z.ltb_ge _ _)) by lia.
    rewrite (proj2 (Z.ltb_ge _ 2%Z)) by lia.
    simpl. rewrite take_ge; [done |]. rewrite length_drop.
    replace (Z.to_nat (Z.max 2 0)) with 2 by done. lia.
Qed.

(** A path of more than one character is longer than its remainder:
    the recursion of [writeValue] ends. *)
Lemma remainder_shorter (path : QString) :
  (size path >? 1)%Z = true →
  String.length (Settings.remainder path) < String.length path.
Proof.
  unfold size, Settings.remainder. rewrite Z.gtb_ltb, Z.ltb_lt. intros Hsize.
  rewrite section_2_end, append_String, append_empty_l.
  pose proof (join_split "/" path) as Hjoin.
  destruct (split "/" path) as [|f [|g [|h t]]]; simpl drop; simpl String.length.
  1-3: lia.
  rewrite <- Hjoin, !join_cons2, !length_append. simpl String.length.
  rewrite length_append. simpl String.length. lia.
Qed.

End StringFacts.

(** ** The settings document *)

Section SettingsFacts.

Import Settings.

Local Open Scope nat_scope.

(** More fuel than the length of the path changes nothing. *)
Lemma writeValue_fuel_enough (fuel : nat) :
  ∀ (path : QString) (input : gmap string QVariant) (value : QVariant),
    String.length path ≤ fuel →
    writeValue_fuel fuel path input value = writeValue path input value.
Proof.
  unfold writeValue.
  induction fuel as [fuel IH] using lt_wf_ind. intros path input value Hlen.
  destruct fuel as [|fuel].
  - replace (String.length path) with 0 by lia. done.
  - destruct (String.length path) as [|n] eqn:En; simpl.
    + unfold size. rewrite En. done.
    + destruct (size path >? 1)%Z eqn:Hsize; [|done].
      pose proof (remainder_shorter path Hsize) as Hshort.
      fold (remainder path).
      rewrite (IH fuel) by lia. rewrite (IH n) by lia. done.
Qed.

(** The equation of the source: [writeValue] is its own recursion. *)
Lemma writeValue_eq (path : QString) (input : gmap string QVariant) (value : QVariant) :
  writeValue path input value =
    if (size path >? 1)%Z
    then VMap (<[entryName path :=
                 writeValue (remainder path)
                   (toMap (QtVariant.value (entryName path) input)) value]> input)
    else value.
Proof.
  unfold writeValue at 1.
  destruct (String.length path) as [|n] eqn:En; simpl.
  - unfold size. rewrite En. done.
  - destruct (size path >? 1)%Z eqn:Hsize; [|done].
    pose proof (remainder_shorter path Hsize) as Hshort.
    fold (remainder path). fold (entryName path).
    rewrite writeValue_fuel_enough by lia. done.
Qed.

Lemma pathKeys_fuel_enough (fuel : nat) :
  ∀ path : QString,
    String.length path ≤ fuel → pathKeys_fuel fuel path = pathKeys path.
Proof.
  unfold pathKeys.
  induction fuel as [fuel IH] using lt_wf_ind. intros path Hlen.
  destruct fuel as [|fuel].
  - replace (String.length path) with 0 by lia. done.
  - destruct (String.length path) as [|n] eqn:En; simpl.
    + unfold size. rewrite En. done.
    + destruct (size path >? 1)%Z eqn:Hsize; [|done].
      pose proof (remainder_shorter path Hsize) as Hshort.
      rewrite (IH fuel) by lia. rewrite (IH n) by lia. done.
Qed.

Lemma pathKeys_eq (path : QString) :
  pathKeys path =
    if (size path >? 1)%Z then entryName path :: pathKeys (remainder path) else [].
Proof.
  unfold pathKeys at 1.
  destruct (String.length path) as [|n] eqn:En; simpl.
  - unfold size. rewrite En. done.
  - destruct (size path >? 1)%Z eqn:Hsize; [|done].
    pose proof (remainder_shorter path Hsize) as Hshort.
    rewrite pathKeys_fuel_enough by lia. done.
Qed.

Lemma value_insert (key : QString) (v : QVariant) (m : gmap string QVariant) :
  QtVariant.value key (<[key := v]> m) = v.
Proof. unfold QtVariant.value. by rewrite lookup_insert_eq. Qed.

Lemma roundtrip_at (n : nat) :
  ∀ (path : QString) (input : gmap string QVariant) (value : QVariant),
    String.length path = n →
    readValue path (writeValue path input value) = value
    ∧ siblingsKept path input (toMap (writeValue path input value)).
Proof.
  induction n as [n IH] using lt_wf_ind. intros path input value Hlen.
  unfold readValue, siblingsKept. rewrite pathKeys_eq, writeValue_eq.
  destruct (size path >? 1)%Z eqn:Hsize; [|done].
  pose proof (remainder_shorter path Hsize) as Hshort.
  set (below := toMap (QtVariant.value (entryName path) input)).
  assert (Hlt : String.length (remainder path) < n) by lia.
  destruct (IH _ Hlt (remainder path) below value eq_refl) as [Hread Hkept].
  cbn [lookupKeys siblingsAlong toMap]. rewrite value_insert. split; [exact Hread |].
  split; [|exact Hkept].
  intros key Hne. by rewrite lookup_insert_ne.
Qed.

(** With the keys that [writeValue] itself takes from the path:
    writing [value] at [path] and reading those keys of the result
    gives [value], for every path, document and value; and at every
    node on the way every other key is still there with the subtree it
    had. *)
Theorem writeValue_roundtrip (path : QString) (input : gmap string QVariant)
    (value : QVariant) :
  readValue path (writeValue path input value) = value
  ∧ siblingsKept path input (toMap (writeValue path input value)).
Proof. by apply (roundtrip_at (String.length path)). Qed.

Lemma split_key_last (k : QString) :
  hasChar "/" k = false → split "/" ("/" ++ k) = [""; k].
Proof.
  intros Hk. rewrite append_String, append_empty_l. cbn [split].
  rewrite Ascii.eqb_refl. by rewrite split_no_sep.
Qed.

Lemma split_key_more (k r : QString) :
  hasChar "/" k = false →
  split "/" ("/" ++ k ++ String "/" r) = "" :: k :: split "/" r.
Proof.
  intros Hk. rewrite append_String, append_empty_l. cbn [split].
  rewrite Ascii.eqb_refl. by rewrite split_app_sep.
Qed.

Lemma route_cons (k : QString) (keys : list QString) :
  route (k :: keys) = String "/" (k ++ route keys).
Proof. reflexivity. Qed.

(** The keys of a route [/k1/.../kn] are [k1 ... kn], when no key holds
    a separator and the last key is not empty. *)
Lemma pathKeys_route (keys : list QString) :
  Forall (λ k, hasChar "/" k = false) keys →
  List.last keys "x" ≠ "" →
  pathKeys (route keys) = keys.
Proof.
  induction keys as [|k keys IH]; intros Hsep Hlast; [done |].
  apply Forall_cons in Hsep as [Hk Hsep].
  rewrite pathKeys_eq. unfold entryName, remainder.
  rewrite section_0_1, section_2_end.
  destruct keys as [|k' keys].
  - cbn [route]. rewrite append_empty_r, split_key_last by done.
    cbn [List.last] in Hlast.
    replace (size ("/" ++ k) >? 1)%Z with true.
    + cbn [take drop join remove_first]. rewrite append_empty_l. cbn [remove_first].
      rewrite append_empty_r. by rewrite pathKeys_eq.
    + symmetry. unfold size. rewrite Z.gtb_ltb, Z.ltb_lt, append_String.
      destruct k; [done | simpl; lia].
  - specialize (IH Hsep Hlast).
    rewrite (route_cons k (k' :: keys)), (route_cons k' keys) in *.
    change (String "/" (k ++ String "/" (k' ++ route keys)))
      with ("/" ++ k ++ String "/" (k' ++ route keys)).
    rewrite split_key_more by done.
    replace (size ("/" ++ k ++ String "/" (k' ++ route keys)) >? 1)%Z with true.
    + cbn [take drop]. rewrite take_0, drop_0, join_split, join_cons2, append_empty_l.
      cbn [remove_first join]. rewrite append_String, append_empty_l. by rewrite IH.
    + symmetry. unfold size.
      rewrite Z.gtb_ltb, Z.ltb_lt, append_String, append_empty_l.
      simpl String.length. rewrite length_append. simpl String.length. lia.
Qed.

(** Reading a route after writing it is reading key by key. *)
Corollary writeValue_route (keys : list QString) (input : gmap string QVariant)
    (value : QVariant) :
  Forall (λ k, hasChar "/" k = false) keys →
  List.last keys "x" ≠ "" →
  lookupKeys keys (writeValue (route keys) input value) = value.
Proof.
  intros Hsep Hlast.
  rewrite <- (pathKeys_route keys Hsep Hlast) at 1.
  by apply (roundtrip_at (String.length (route keys))).
Qed.

(** *** The path of [doEnableMod] *)

Lemma route_app (a b : list QString) : route (a ++ b)%list = route a ++ route b.
Proof.
  induction a as [|k a IH]; [done |].
  cbn [app route]. by rewrite IH, !append_assoc.
Qed.

Lemma route_submodKeys_cons (c : ascii) (f : QString) (fs : list QString) (rest : QString) :
  route (submodKeys (f :: fs)) = "/" ++ rest →
  route (submodKeys (String c f :: fs)) = "/" ++ String c rest.
Proof.
  destruct fs as [|g fs]; cbn [submodKeys route];
    rewrite !(append_String "/"), !append_empty_l; intros [= <-];
    by rewrite append_String.
Qed.

(** Replacing every [.] by [/mods/] gives the route of the names of the
    mod and its submods. *)
Lemma route_submodKeys (mod_ : QString) :
  route (submodKeys (split "." mod_)) = "/" ++ replace "." "/mods/" mod_.
Proof.
  induction mod_ as [|c s IH]; [done |].
  cbn [split replace]. destruct (Ascii.eqb c ".").
  - destruct (split_cons "." s) as (f & fs & E). rewrite E in IH |- *.
    change (submodKeys ("" :: f :: fs)) with ("" :: "mods" :: submodKeys (f :: fs)).
    cbn [route]. rewrite IH. reflexivity.
  - destruct (split_cons "." s) as (f & fs & E). rewrite E in IH |- *.
    by apply route_submodKeys_cons.
Qed.

Lemma activePath_route (mod_ : QString) : activePath mod_ = route (activeKeys mod_).
Proof.
  unfold activePath, activeKeys. cbn [route].
  rewrite route_app, route_submodKeys. cbn [route].
  rewrite append_empty_r, !append_assoc. reflexivity.
Qed.

Lemma split_fields_no_char (x sep : ascii) (s : QString) :
  hasChar x s = false → Forall (λ f, hasChar x f = false) (split sep s).
Proof.
  induction s as [|c s IH]; cbn [hasChar split]; intros H; [by repeat constructor |].
  apply orb_false_iff in H as [Hc Hs]. specialize (IH Hs).
  destruct (Ascii.eqb c sep); [by constructor |].
  destruct (split_cons sep s) as (f & fs & E). rewrite E in IH |- *.
  apply Forall_cons in IH as [Hf Hfs]. constructor; [|done].
  cbn [hasChar]. by rewrite Hc, Hf.
Qed.

Lemma submodKeys_no_slash (fields : list QString) :
  Forall (λ f, hasChar "/" f = false) fields →
  Forall (λ f, hasChar "/" f = false) (submodKeys fields).
Proof.
  induction 1 as [|f [|g fs] Hf Hfs IH]; cbn [submodKeys]; [done | by repeat constructor |].
  by repeat constructor.
Qed.

Lemma activeKeys_wellformed (mod_ : QString) :
  hasChar "/" mod_ = false →
  Forall (λ k, hasChar "/" k = false) (activeKeys mod_)
  ∧ List.last (activeKeys mod_) "x" ≠ "".
Proof.
  intros Hmod. unfold activeKeys. split.
  - constructor; [done |]. apply Forall_app. split; [|by repeat constructor].
    by apply submodKeys_no_slash, split_fields_no_char.
  - change ("activeMods" :: (submodKeys (split "." mod_) ++ ["active"])%list)
      with (("activeMods" :: submodKeys (split "." mod_)) ++ ["active"])%list.
    by rewrite List.last_last.
Qed.

(** Writing the flag of a mod at the path of [doEnableMod] and reading
    it key by key, [doc["activeMods"][name]["mods"][sub]...["active"]],
    gives the flag. *)
Lemma writeValue_activePath (mod_ : QString) (input : gmap string QVariant)
    (value : QVariant) :
  hasChar "/" mod_ = false →
  lookupKeys (activeKeys mod_) (writeValue (activePath mod_) input value) = value.
Proof.
  intros Hmod. destruct (activeKeys_wellformed mod_ Hmod) as [Hsep Hlast].
  rewrite activePath_route, <- (pathKeys_route _ Hsep Hlast) at 1.
  by apply (roundtrip_at (String.length (route (activeKeys mod_)))).
Qed.

End SettingsFacts.

(** ** The archive *)

Section ArchiveFacts.

Import Archive.

Lemma eqb_refl_true (s : QString) : String.eqb s s = true.
Proof. by apply String.eqb_eq. Qed.

(** [folder/mod.json] is the manifest of [folder] at level 0. *)
Lemma manifestDir_folder (folder : QString) :
  hasChar "/" folder = false →
  manifestDir 0 (folder ++ "/mod.json") = Some folder.
Proof.
  intros Hfolder. unfold manifestDir.
  rewrite section_0_0.
  change (folder ++ "/mod.json") with (folder ++ String "/" "mod.json") at 2.
  rewrite split_app_sep by done. cbn [take join].
  by rewrite eqb_refl_true.
Qed.

Lemma searchLevel_first (folderLevel : Z) (before after : list QString)
    (file dir : QString) :
  Forall (λ f, manifestDir folderLevel f = None) before →
  manifestDir folderLevel file = Some dir →
  searchLevel folderLevel (before ++ file :: after)%list = Some dir.
Proof.
  intros Hbefore Hfile.
  induction Hbefore as [|f before Hf _ IH]; cbn [app searchLevel].
  - by rewrite Hfile.
  - by rewrite Hf.
Qed.

Lemma searchLevel_skip (folderLevel : Z) (before after : list QString) (file : QString) :
  manifestDir folderLevel file = None →
  searchLevel folderLevel (before ++ file :: after)%list
  = searchLevel folderLevel (before ++ after)%list.
Proof.
  intros Hfile.
  induction before as [|f before IH]; cbn [app searchLevel].
  - by rewrite Hfile.
  - by rewrite IH.
Qed.

(** The entry [mod.json] of the archive's root is a manifest at no
    level. *)
Lemma manifestDir_root (folderLevel : Z) :
  folderLevel = 0%Z ∨ folderLevel = 1%Z →
  manifestDir folderLevel "mod.json" = None.
Proof. by intros [-> | ->]. Qed.

Lemma detectModArchive_skip_root (before after : list QString) :
  detectModArchive (before ++ "mod.json" :: after)%list
  = detectModArchive (before ++ after)%list.
Proof.
  unfold detectModArchive. cbn [searchLevels].
  rewrite !searchLevel_skip by (apply manifestDir_root; auto).
  done.
Qed.

(** The first field of a string holds no separator. *)
Lemma first_field_no_sep (sep : ascii) (s : QString) :
  hasChar sep (join sep (take 1 (split sep s))) = false.
Proof.
  induction s as [|c s IH]; cbn [split]; [done |].
  destruct (Ascii.eqb c sep) eqn:Hc; [done |].
  destruct (split_cons sep s) as (f & fs & E). rewrite E in IH |- *.
  cbn [take] in *. rewrite take_0 in *. cbn [join hasChar] in *. by rewrite Hc, IH.
Qed.

(** A manifest at level 0 is an entry [folder/mod.json] whose folder is
    a single name. *)
Lemma manifestDir_0_inv (file dir : QString) :
  manifestDir 0 file = Some dir →
  file = dir ++ "/mod.json" ∧ hasChar "/" dir = false.
Proof.
  unfold manifestDir. rewrite section_0_0.
  destruct (String.eqb_spec file (join "/" (take 1 (split "/" file)) ++ "/mod.json"))
    as [Heq|]; [|done].
  intros [= <-]. split; [exact Heq | apply first_field_no_sep].
Qed.

Lemma searchLevel_found (folderLevel : Z) (files : list QString) (file dir : QString) :
  file ∈ files →
  manifestDir folderLevel file = Some dir →
  ∃ file' dir', file' ∈ files
                ∧ manifestDir folderLevel file' = Some dir'
                ∧ searchLevel folderLevel files = Some dir'.
Proof.
  intros Hin Hfile.
  induction files as [|x files IH]; [by apply elem_of_nil in Hin |].
  cbn [searchLevel]. destruct (manifestDir folderLevel x) as [d|] eqn:Hx.
  - exists x, d. split; [apply list_elem_of_here | done].
  - apply elem_of_cons in Hin as [-> | Hin]; [congruence |].
    destruct (IH Hin) as (file' & dir' & Hin' & Hm & Hs).
    exists file', dir'. split; [by apply list_elem_of_further | done].
Qed.

(** Among the manifests inside folders the claim C6 holds.  The first
    level, the manifest one folder deep, is tried on
    every entry before the second.  So when the listing holds an entry
    [folder/mod.json], the result is the folder of such an entry,
    whatever deeper manifests the listing holds and wherever they stand;
    and it is [folder] when [folder/mod.json] is the only manifest that
    lies one folder deep. *)
Theorem detectModArchive_shallow_first (files : list QString) (folder : QString) :
  hasChar "/" folder = false →
  (folder ++ "/mod.json") ∈ files →
  (∃ first, hasChar "/" first = false
            ∧ (first ++ "/mod.json") ∈ files
            ∧ detectModArchive files = first)
  ∧ ((∀ other, hasChar "/" other = false → (other ++ "/mod.json") ∈ files →
               other = folder) →
     detectModArchive files = folder).
Proof.
  intros Hfolder Hin.
  destruct (searchLevel_found 0 files _ folder Hin (manifestDir_folder folder Hfolder))
    as (file' & first & Hin' & Hm & Hs).
  apply manifestDir_0_inv in Hm as [-> Hfirst].
  assert (Hresult : detectModArchive files = first).
  { unfold detectModArchive. cbn [searchLevels]. by rewrite Hs. }
  split; [by exists first |].
  intros Honly. rewrite Hresult. by apply Honly.
Qed.

(** The archive whose only manifest is [Foo/mod.json], and the same
    archive with a deeper manifest in front of it. *)
Lemma detectModArchive_shallow_first_witness :
  detectModArchive ["Foo/data/a.txt"; "Foo/mod.json"] = "Foo"
  ∧ detectModArchive ["A/B/mod.json"; "Foo/mod.json"; "A/mod.txt"] = "Foo".
Proof.
  assert (Honly : ∀ files,
            Forall (λ f, f = "Foo/mod.json" ∨ manifestDir 0 f = None) files →
            ∀ other, hasChar "/" other = false → (other ++ "/mod.json") ∈ files →
                     other = "Foo").
  { intros files Hfiles other Hother Hin.
    rewrite Forall_forall in Hfiles. destruct (Hfiles _ Hin) as [Heq | Hnone].
    - pose proof (manifestDir_folder other Hother) as Hm. rewrite Heq in Hm.
      by injection Hm.
    - by rewrite manifestDir_folder in Hnone. }
  split.
  - apply (detectModArchive_shallow_first ["Foo/data/a.txt"; "Foo/mod.json"] "Foo").
    + reflexivity.
    + apply list_elem_of_further, list_elem_of_here.
    + apply Honly. repeat constructor; by (left + right).
  - apply (detectModArchive_shallow_first
             ["A/B/mod.json"; "Foo/mod.json"; "A/mod.txt"] "Foo").
    + reflexivity.
    + apply list_elem_of_further, list_elem_of_here.
    + apply Honly. repeat constructor; by (left + right).
Defined.

End ArchiveFacts.

(** ** Error texts *)

Section ArgFacts.

Local Open Scope nat_scope.

(** The text behind a marker is shorter than the text behind its [%]:
    the scans of [findArgEscapes] and [replaceArgEscapes] end. *)
Lemma escapeNumber_shorter (s rest : QString) (n : nat) :
  escapeNumber s = Some (n, rest) → String.length rest < String.length s.
Proof.
  destruct s as [|c1 [|c2 s2]]; cbn [escapeNumber]; [done | |].
  - destruct (digitValue c1); [|done]. intros [= _ <-]. simpl. lia.
  - destruct (digitValue c1); [|done].
    destruct (digitValue c2); intros [= _ <-]; simpl; lia.
Qed.

Lemma parseEscape_shorter (s rest : QString) (n : nat) :
  parseEscape s = Some (n, rest) → String.length rest < String.length s.
Proof.
  destruct s as [|c s']; cbn [parseEscape]; [done |].
  destruct (Ascii.eqb c "L"); intros H; apply escapeNumber_shorter in H; simpl in *; lia.
Qed.

Lemma findArgEscapes_fuel_enough (fuel : nat) :
  ∀ (s : QString) (acc : option nat),
    String.length s ≤ fuel →
    findArgEscapes_fuel fuel s acc = findArgEscapes_fuel (String.length s) s acc.
Proof.
  induction fuel as [fuel IH] using lt_wf_ind. intros s acc Hlen.
  destruct s as [|c s']; [by destruct fuel |].
  destruct fuel as [|fuel]; [simpl in Hlen; lia |].
  simpl in Hlen. cbn [String.length findArgEscapes_fuel].
  destruct (Ascii.eqb c "%").
  - destruct (parseEscape s') as [[n rest]|] eqn:Hparse.
    + apply parseEscape_shorter in Hparse.
      rewrite (IH fuel) by lia. by rewrite (IH (String.length s')) by lia.
    + apply IH; lia.
  - apply IH; lia.
Qed.

Lemma replaceArgEscapes_fuel_enough (fuel : nat) :
  ∀ (s : QString) (min_escape : nat) (a : QString),
    String.length s ≤ fuel →
    replaceArgEscapes_fuel fuel s min_escape a
    = replaceArgEscapes_fuel (String.length s) s min_escape a.
Proof.
  induction fuel as [fuel IH] using lt_wf_ind. intros s min_escape a Hlen.
  destruct s as [|c s']; [by destruct fuel |].
  destruct fuel as [|fuel]; [simpl in Hlen; lia |].
  simpl in Hlen. cbn [String.length replaceArgEscapes_fuel].
  destruct (Ascii.eqb c "%").
  - destruct (parseEscape s') as [[n rest]|] eqn:Hparse.
    + apply parseEscape_shorter in Hparse.
      rewrite (IH fuel) by lia. by rewrite (IH (String.length s')) by lia.
    + by rewrite (IH fuel) by lia.
  - by rewrite (IH fuel) by lia.
Qed.

(** The two-marker template of [addError], after its first [arg]. *)
Lemma arg_name_template (modname : QString) :
  arg modname "%1: %2" = modname ++ ": %2".
Proof. unfold arg. simpl. reflexivity. Qed.

Lemma arg_needed (modEntry : QString) :
  arg modEntry "This mod is needed to run %1" = "This mod is needed to run " ++ modEntry.
Proof. unfold arg. simpl. by rewrite append_empty_r. Qed.

Lemma arg_missing (modEntry : QString) :
  arg modEntry "Required mod %1 is missing" = "Required mod " ++ modEntry ++ " is missing".
Proof. unfold arg. simpl. reflexivity. Qed.

Lemma arg_conflicts (modEntry : QString) :
  arg modEntry "This mod conflicts with %1" = "This mod conflicts with " ++ modEntry.
Proof. unfold arg. simpl. by rewrite append_empty_r. Qed.

(** In front of a text without [%] the scan for markers just moves on. *)
Lemma findArgEscapes_fuel_plain (p s : QString) (acc : option nat) :
  hasChar "%" p = false →
  findArgEscapes_fuel (String.length (p ++ s)) (p ++ s) acc
  = findArgEscapes_fuel (String.length s) s acc.
Proof.
  induction p as [|c p IH]; intros Hp; [by rewrite append_empty_l |].
  simpl in Hp. apply orb_false_iff in Hp as [Hc Hp].
  rewrite append_String. simpl. rewrite Hc. by apply IH.
Qed.

Lemma replaceArgEscapes_fuel_plain (p s : QString) (min_escape : nat) (a : QString) :
  hasChar "%" p = false →
  replaceArgEscapes_fuel (String.length (p ++ s)) (p ++ s) min_escape a
  = p ++ replaceArgEscapes_fuel (String.length s) s min_escape a.
Proof.
  induction p as [|c p IH]; intros Hp; [by rewrite !append_empty_l |].
  simpl in Hp. apply orb_false_iff in Hp as [Hc Hp].
  rewrite !append_String. simpl. rewrite Hc. by rewrite IH.
Qed.

(** A mod name without [%] gives the text [modname: message]. *)
Lemma errorText_plain (modname message : QString) :
  hasChar "%" modname = false →
  Manager.errorText modname message = modname ++ ": " ++ message.
Proof.
  intros Hname. unfold Manager.errorText. rewrite arg_name_template.
  unfold arg, findArgEscapes.
  rewrite findArgEscapes_fuel_plain by done. simpl.
  rewrite replaceArgEscapes_fuel_plain by done. simpl.
  by rewrite append_empty_r.
Qed.

End ArgFacts.

(** ** The validators *)

Section ValidatorFacts.

Import Manager.

Context {ML : ModListApi}.

Lemma listContains_elem (l : QStringList) (s : QString) :
  listContains l s = true ↔ s ∈ l.
Proof.
  unfold listContains. rewrite existsb_exists. split.
  - intros (x & Hin & Heq). apply String.eqb_eq in Heq as ->.
    by apply list_elem_of_In.
  - intros Hin. exists s. split; [by apply list_elem_of_In | by apply String.eqb_eq].
Qed.

Lemma addError_rejects (modname message : QString) (m : CModManager) :
  (addError modname message m).1 = false.
Proof. reflexivity. Qed.

Lemma dependsLoop_None (ml : CModList) (entries : QStringList) :
  dependsLoop ml entries = None →
  ∀ d, d ∈ entries → hasMod ml d = true ∧ isEnabled (getMod ml d) = true.
Proof.
  induction entries as [|e entries IH]; cbn [dependsLoop]; intros Hloop d Hd.
  - by apply elem_of_nil in Hd.
  - destruct (hasMod ml e) eqn:Hhas; [|done].
    destruct (isEnabled (getMod ml e)) eqn:Hen; [|done].
    apply elem_of_cons in Hd as [-> | Hd]; [done | by apply IH].
Qed.

Lemma reverseConflictLoop_None (ml : CModList) (modname : QString) (entries : list QString) :
  reverseConflictLoop ml modname entries = None →
  ∀ e, e ∈ entries → isEnabled (getMod ml e) = true →
       modname ∉ getValue_toStringList (getMod ml e) "conflicts".
Proof.
  induction entries as [|x entries IH]; cbn [reverseConflictLoop]; intros Hloop e He Hen.
  - by apply elem_of_nil in He.
  - destruct (isEnabled (getMod ml x)) eqn:Hx; cbn [andb] in Hloop.
    + destruct (listContains _ modname) eqn:Hc; [done |].
      apply elem_of_cons in He as [-> | He]; [| by apply IH].
      intros Hin. apply listContains_elem in Hin. congruence.
    + apply elem_of_cons in He as [-> | He]; [congruence | by apply IH].
Qed.

Lemma conflictLoop_None (ml : CModList) (entries : QStringList) :
  conflictLoop ml entries = None →
  ∀ c, c ∈ entries → ¬ (hasMod ml c = true ∧ isEnabled (getMod ml c) = true).
Proof.
  induction entries as [|x entries IH]; cbn [conflictLoop]; intros Hloop c Hc [Hhas Hen].
  - by apply elem_of_nil in Hc.
  - destruct (hasMod ml x && isEnabled (getMod ml x)) eqn:Hx; [done |].
    apply elem_of_cons in Hc as [-> | Hc].
    + rewrite Hhas, Hen in Hx. done.
    + by apply (IH Hloop c Hc).
Qed.

(** [canEnableMod] accepts only behind its three state checks and its
    three loops. *)
Lemma canEnableMod_accepts_inv (modname : QString) (m : CModManager) :
  (canEnableMod modname m).1 = true →
  isEnabled (getMod (modList m) modname) = false
  ∧ isInstalled (getMod (modList m) modname) = true
  ∧ isCompatible (getMod (modList m) modname) = true
  ∧ dependsLoop (modList m)
      (getValue_toStringList (getMod (modList m) modname) "depends") = None
  ∧ reverseConflictLoop (modList m) modname (getModList (modList m)) = None
  ∧ conflictLoop (modList m)
      (getValue_toStringList (getMod (modList m) modname) "conflicts") = None.
Proof.
  unfold canEnableMod. intros Hok.
  destruct (isEnabled (getMod (modList m) modname)); [done |].
  destruct (isInstalled (getMod (modList m) modname)); [|done].
  destruct (isCompatible (getMod (modList m) modname)); [|done].
  cbn [negb] in Hok.
  destruct (dependsLoop (modList m) _); [done |].
  destruct (reverseConflictLoop (modList m) modname _); [done |].
  destruct (conflictLoop (modList m) _); [done |].
  done.
Qed.

(** What the checks of [canEnableMod] themselves give: when it accepts
    a package, every name of its [depends] is a known package that is
    enabled, no enabled package of the list names it in its
    [conflicts], and no name of its own [conflicts] is a known package
    that is enabled.  (The package is then also not yet enabled,
    installed and compatible.) *)
Theorem canEnableMod_sound (modname : QString) (m : CModManager) :
  (canEnableMod modname m).1 = true →
  (∀ d, d ∈ getValue_toStringList (getMod (modList m) modname) "depends" →
        hasMod (modList m) d = true ∧ isEnabled (getMod (modList m) d) = true)
  ∧ (∀ e, e ∈ getModList (modList m) → isEnabled (getMod (modList m) e) = true →
          modname ∉ getValue_toStringList (getMod (modList m) e) "conflicts")
  ∧ (∀ c, c ∈ getValue_toStringList (getMod (modList m) modname) "conflicts" →
          ¬ (hasMod (modList m) c = true ∧ isEnabled (getMod (modList m) c) = true))
  ∧ isEnabled (getMod (modList m) modname) = false
  ∧ isInstalled (getMod (modList m) modname) = true
  ∧ isCompatible (getMod (modList m) modname) = true.
Proof.
  intros Hok.
  destruct (canEnableMod_accepts_inv modname m Hok)
    as (Hen & Hinst & Hcomp & Hdep & Hrev & Hcon).
  split; [by apply dependsLoop_None |].
  split; [by apply reverseConflictLoop_None |].
  split; [by apply conflictLoop_None |].
  done.
Qed.


(** With a mod list whose enabled entries are all installed, the
    dependencies of an accepted package are installed. *)
Lemma canEnableMod_depends_installed (modname : QString) (m : CModManager) :
  (∀ e : CModEntry, isEnabled e = true → isInstalled e = true) →
  (canEnableMod modname m).1 = true →
  ∀ d, d ∈ getValue_toStringList (getMod (modList m) modname) "depends" →
       isInstalled (getMod (modList m) d) = true.
Proof.
  intros Hcontract Hok d Hd.
  destruct (canEnableMod_accepts_inv modname m Hok) as (_ & _ & _ & Hdep & _).
  apply Hcontract. by apply (dependsLoop_None _ _ Hdep d Hd).
Qed.

Lemma dependentsLoop_Some (ml : CModList) (modname dependent : QString)
    (entries : list QString) :
  dependent ∈ entries →
  isEnabled (getMod ml dependent) = true →
  modname ∈ getValue_toStringList (getMod ml dependent) "depends" →
  ∃ first,
    first ∈ entries
    ∧ isEnabled (getMod ml first) = true
    ∧ modname ∈ getValue_toStringList (getMod ml first) "depends"
    ∧ dependentsLoop ml modname entries
      = Some ("This mod is needed to run " ++ first).
Proof.
  intros Hin Hen Hdep.
  induction entries as [|x entries IH]; [by apply elem_of_nil in Hin |].
  cbn [dependentsLoop].
  destruct (listContains (getValue_toStringList (getMod ml x) "depends") modname
            && isEnabled (getMod ml x)) eqn:Hx.
  - apply andb_true_iff in Hx as [Hc Hex]. apply listContains_elem in Hc.
    exists x. rewrite arg_needed. repeat split; [apply list_elem_of_here | done..].
  - apply elem_of_cons in Hin as [-> | Hin].
    + apply listContains_elem in Hdep. rewrite Hdep, Hen in Hx. done.
    + destruct (IH Hin) as (first & Hf & Hfe & Hfd & Hloop).
      exists first. repeat split; [by apply list_elem_of_further | done..].
Qed.



End ValidatorFacts.

Section ValidatorExamples.

Import Manager Reference.

(** [a] may be enabled in [tableEnable]: [b] is enabled, [c] is not. *)
Lemma canEnableMod_sound_witness :
  (canEnableMod "a" (managerOf tableEnable)).1 = true
  ∧ hasMod tableEnable "b" = true
  ∧ isEnabled (getMod tableEnable "b") = true.
Proof.
  assert (H : (canEnableMod "a" (managerOf tableEnable)).1 = true) by reflexivity.
  split; [exact H |].
  destruct (canEnableMod_sound "a" (managerOf tableEnable) H) as (Hdep & _).
  apply (Hdep "b"). cbn. apply list_elem_of_here.
Defined.






End ValidatorExamples.

(** ** Removing a directory *)

Section RemoveFacts.

Import Manager.

Context {PF : Platform}.

Lemma compare_folded_eq (a b : QString) : compare_folded a b = 0%Z ↔ a = b.
Proof.
  revert b. induction a as [|x a IH]; intros [|y b]; cbn [compare_folded]; try done.
  destruct (Z.eqb_spec (Z.of_N (N_of_ascii x) - Z.of_N (N_of_ascii y)) 0) as [Hd|Hd].
  - assert (x = y) as ->.
    { rewrite <- (ascii_N_embedding x), <- (ascii_N_embedding y). f_equal. lia. }
    rewrite IH. split; [by intros -> | by intros [= ->]].
  - split; [done |]. intros [= -> ->]. lia.
Qed.

(** [QString::compare] with [Qt::CaseInsensitive] is zero on the strings
    that are equal up to case. *)
Lemma compare_ci_eq (a b : QString) : compare_ci a b = 0%Z ↔ toLower a = toLower b.
Proof. apply compare_folded_eq. Qed.

(** C2. [removeModDir] removes nothing and returns false as soon as one
    of its checks fails: the parent directory is not named "Mods" up to
    case (or there is no parent), or, unless built for iOS, the parent's
    parent is not named "vcmi" or the absolute path does not hold
    "vcmi", or the absolute path does not hold "Mods". *)
Theorem removeModDir_refuses (path : QString) (w : World) :
  (∀ parent, QDir_cdUp w path = Some parent →
             toLower (QDir_dirName parent) ≠ "mods")
  ∨ (VCMI_IOS = false
     ∧ ∀ parent above, QDir_cdUp w path = Some parent →
                       QDir_cdUp w parent = Some above →
                       toLower (QDir_dirName above) ≠ "vcmi")
  ∨ (VCMI_IOS = false ∧ contains_ci (QDir_absolutePath w path) "vcmi" = false)
  ∨ contains_ci (QDir_absolutePath w path) "Mods" = false →
  removeModDir path w = (false, w).
Proof.
  intros Hfail. unfold removeModDir.
  destruct (QDir_cdUp w path) as [parent|] eqn:Hup; [|done].
  destruct (Z.eqb_spec (compare_ci "Mods" (QDir_dirName parent)) 0) as [Hmods|Hmods];
    cbn [negb]; [|done].
  apply compare_ci_eq in Hmods.
  destruct Hfail as [H1 | [[Hios H2] | [[Hios H3] | H4]]].
  - exfalso. apply (H1 parent eq_refl). by rewrite <- Hmods.
  - rewrite Hios.
    destruct (QDir_cdUp w parent) as [above|] eqn:Hup2; [|done].
    destruct (Z.eqb_spec (compare_ci "vcmi" (QDir_dirName above)) 0) as [Hv|Hv];
      cbn [negb]; [|done].
    apply compare_ci_eq in Hv.
    exfalso. apply (H2 parent above eq_refl Hup2). by rewrite <- Hv.
  - rewrite Hios, H3.
    destruct (QDir_cdUp w parent) as [above|]; [|done].
    by destruct (negb (compare_ci "vcmi" (QDir_dirName above) =? 0)%Z).
  - rewrite H4. cbn [negb].
    destruct VCMI_IOS; [done |].
    destruct (QDir_cdUp w parent) as [above|]; [|done].
    destruct (negb (compare_ci "vcmi" (QDir_dirName above) =? 0)%Z); [done |].
    by destruct (negb (contains_ci (QDir_absolutePath w path) "vcmi")).
Qed.

(** Only with all checks passed does the removal run. *)
Lemma removeModDir_removes (path : QString) (w : World) :
  removeModDir path w ≠ (false, w) →
  removeModDir path w = QDir_removeRecursively path w
  ∧ ∃ parent, QDir_cdUp w path = Some parent
              ∧ toLower (QDir_dirName parent) = "mods".
Proof.
  unfold removeModDir. intros Hrun.
  destruct (QDir_cdUp w path) as [parent|] eqn:Hup; [|done].
  destruct (Z.eqb_spec (compare_ci "Mods" (QDir_dirName parent)) 0) as [Hmods|Hmods];
    cbn [negb] in *; [|done].
  apply compare_ci_eq in Hmods.
  destruct (contains_ci (QDir_absolutePath w path) "Mods"); cbn [negb] in *.
  - destruct VCMI_IOS; [by eauto |].
    destruct (QDir_cdUp w parent) as [above|]; [|done].
    destruct (negb (compare_ci "vcmi" (QDir_dirName above) =? 0)%Z); [done |].
    destruct (negb (contains_ci (QDir_absolutePath w path) "vcmi")); [done |].
    by eauto.
  - exfalso. apply Hrun.
    destruct VCMI_IOS; [done |].
    destruct (QDir_cdUp w parent) as [above|]; [|done].
    destruct (negb (compare_ci "vcmi" (QDir_dirName above) =? 0)%Z); [done |].
    by destruct (negb (contains_ci (QDir_absolutePath w path) "vcmi")).
Qed.

End RemoveFacts.

Section RemoveExamples.

Import Manager Reference.

(** [/home/user/Documents] is refused: its parent is [user]. *)
Lemma removeModDir_refuses_witness :
  QDir_cdUp home "/home/user/Documents" = Some "/home/user"
  ∧ removeModDir "/home/user/Documents" home = (false, home).
Proof.
  split; [reflexivity |].
  apply (removeModDir_refuses "/home/user/Documents" home).
  left. intros parent Hparent.
  assert (parent = "/home/user") as -> by (by injection Hparent).
  discriminate.
Defined.

End RemoveExamples.

(** ** The public operations *)

Section OperationFacts.

Import Manager.

Context {ML : ModListApi} {PF : Platform}.

Lemma canInstallMod_verdict (modname : QString) (m : CModManager) :
  canInstallMod modname m = (true, m)
  ∨ ∃ message, canInstallMod modname m = addError modname message m.
Proof.
  unfold canInstallMod.
  repeat match goal with |- context [if ?b then _ else _] => destruct b end; eauto.
Qed.

Lemma canUninstallMod_verdict (modname : QString) (m : CModManager) :
  canUninstallMod modname m = (true, m)
  ∨ ∃ message, canUninstallMod modname m = addError modname message m.
Proof.
  unfold canUninstallMod.
  repeat match goal with |- context [if ?b then _ else _] => destruct b end; eauto.
Qed.

Lemma canEnableMod_verdict (modname : QString) (m : CModManager) :
  canEnableMod modname m = (true, m)
  ∨ ∃ message, canEnableMod modname m = addError modname message m.
Proof.
  unfold canEnableMod.
  repeat match goal with
         | |- context [if ?b then _ else _] => destruct b
         | |- context [match ?o with Some _ => _ | None => _ end] => destruct o
         end; eauto.
Qed.

Lemma canDisableMod_verdict (modname : QString) (m : CModManager) :
  canDisableMod modname m = (true, m)
  ∨ ∃ message, canDisableMod modname m = addError modname message m.
Proof.
  unfold canDisableMod.
  repeat match goal with
         | |- context [if ?b then _ else _] => destruct b
         | |- context [match ?o with Some _ => _ | None => _ end] => destruct o
         end; eauto.
Qed.

(** A validator changes nothing when it accepts and adds one error text
    when it rejects. *)
Lemma validator_verdict (t : Transition) (m : CModManager) :
  validator t m = (true, m)
  ∨ ∃ modname message, validator t m = addError modname message m.
Proof.
  destruct t as [modname archivePath | modname | modname | modname]; cbn [validator].
  - destruct (canInstallMod_verdict modname m) as [? | [? ?]]; eauto.
  - destruct (canUninstallMod_verdict modname m) as [? | [? ?]]; eauto.
  - destruct (canEnableMod_verdict modname m) as [? | [? ?]]; eauto.
  - destruct (canDisableMod_verdict modname m) as [? | [? ?]]; eauto.
Qed.

Lemma perform_andThen (t : Transition) :
  ∃ run, perform t = andThen (validator t) run.
Proof. destruct t; cbn; eauto. Qed.

(** C7. When its validator rejects, a public operation returns false,
    the error log has got exactly one more entry, at its end, and
    nothing else has changed: the mod list, the local mods, the settings
    document and the world are the ones from before the call. *)
Theorem rejection_is_atomic (t : Transition) (m : CModManager) (w : World) :
  (validator t m).1 = false →
  ∃ entry,
    (perform t m w).1.1 = false
    ∧ recentErrors (perform t m w).1.2 = (recentErrors m ++ [entry])%list
    ∧ modList (perform t m w).1.2 = modList m
    ∧ localMods (perform t m w).1.2 = localMods m
    ∧ modSettings (perform t m w).1.2 = modSettings m
    ∧ (perform t m w).2 = w.
Proof.
  intros Hreject.
  destruct (perform_andThen t) as [run ->]. unfold andThen.
  destruct (validator_verdict t m) as [Hok | (modname & message & Herr)].
  - rewrite Hok in Hreject. done.
  - rewrite Herr. cbn. by exists (errorText modname message).
Qed.

(** C9. [doEnableMod] returns true for every name and flag, whatever
    [JsonToFile] did with the settings file: enabling and disabling
    it adds no error text, and enabling and disabling report the verdict
    of their validator and nothing else. *)
Theorem doEnableMod_reports_success (mod_ : QString) (on : bool)
    (m : CModManager) (w : World) :
  (doEnableMod mod_ on m w).1.1 = true
  ∧ recentErrors (doEnableMod mod_ on m w).1.2 = recentErrors m
  ∧ (enableMod mod_ m w).1.1 = (canEnableMod mod_ m).1
  ∧ (disableMod mod_ m w).1.1 = (canDisableMod mod_ m).1.
Proof.
  assert (Hdo : ∀ flag m', (doEnableMod mod_ flag m' w).1.1 = true).
  { intros flag m'. unfold doEnableMod. by destruct (index _ _). }
  split; [apply Hdo |].
  split; [unfold doEnableMod; by destruct (index _ _) |].
  unfold enableMod, disableMod, andThen. split.
  - destruct (canEnableMod mod_ m) as [[] m']; cbn; [apply Hdo | done].
  - destruct (canDisableMod mod_ m) as [[] m']; cbn; [apply Hdo | done].
Qed.

(** *** The flag that [doEnableMod] writes *)

Lemma index_value (key k : QString) (ms : gmap string QVariant) :
  QtVariant.value k (index key ms).2 = QtVariant.value k ms.
Proof.
  unfold index, QtVariant.value. destruct (ms !! key) eqn:Hkey; cbn [snd]; [done |].
  destruct (decide (key = k)) as [<- | Hne].
  - by rewrite lookup_insert_eq, Hkey.
  - by rewrite lookup_insert_ne.
Qed.

(** After [doEnableMod] the settings document holds the flag of the mod
    under [activeMods], its name, [mods] and the names of its submods,
    and [active]. *)
Lemma doEnableMod_writes_active (mod_ : QString) (on : bool)
    (m : CModManager) (w : World) :
  hasChar "/" mod_ = false →
  Settings.lookupKeys (Settings.activeKeys mod_)
    (VMap (modSettings (doEnableMod mod_ on m w).1.2)) = VBool on.
Proof.
  intros Hmod.
  pose proof (writeValue_activePath mod_ (modSettings m) (VBool on) Hmod) as Hread.
  unfold doEnableMod. fold (Settings.activePath mod_).
  set (written := Settings.writeValue (Settings.activePath mod_) (modSettings m) (VBool on))
    in *.
  pose proof (index_value "activeMods" "activeMods" (toMap written)) as Hindex.
  destruct (index "activeMods" (toMap written)) as [active ms]. cbn [snd fst] in *.
  cbn [modSettings set_modList set_modSettings].
  unfold Settings.activeKeys in *. cbn [Settings.lookupKeys toMap] in *.
  by rewrite Hindex.
Qed.

(** *** The keys of [localMods] *)

Lemma toLowerChar_idem (c : ascii) : toLowerChar (toLowerChar c) = toLowerChar c.
Proof. by destruct c as [[] [] [] [] [] [] [] []]. Qed.

Lemma toLower_idem (s : QString) : toLower (toLower s) = toLower s.
Proof.
  induction s as [|c s IH]; cbn [toLower]; [done |].
  by rewrite toLowerChar_idem, IH.
Qed.

Lemma containsKey_true (key : QString) (lm : gmap string QVariant) :
  containsKey key lm = true ↔ is_Some (lm !! key).
Proof. unfold containsKey. apply bool_decide_eq_true. Qed.

Lemma loadModsLoop_keys (w : World) (installedMods : list QString) :
  ∀ (acc : gmap string QVariant) (key : QString),
    is_Some (loadModsLoop w installedMods acc !! key) →
    is_Some (acc !! key)
    ∨ ∃ name, name ∈ installedMods
              ∧ existsResource w (getModFile name) = true
              ∧ key = toLower name.
Proof.
  induction installedMods as [|name rest IH]; cbn [loadModsLoop]; intros acc key Hkey;
    [by left |].
  destruct (existsResource w (getModFile name)) eqn:Hres.
  - destruct (IH _ _ Hkey) as [Hacc | (n & Hn & Hr & ->)].
    + destruct (decide (toLower name = key)) as [<- | Hne].
      * right. exists name. split; [apply list_elem_of_here | done].
      * left. by rewrite lookup_insert_ne in Hacc.
    + right. exists n. split; [by apply list_elem_of_further | done].
  - destruct (IH _ _ Hkey) as [Hacc | (n & Hn & Hr & ->)]; [by left |].
    right. exists n. split; [by apply list_elem_of_further | done].
Qed.

Lemma loadModsLoop_keeps (w : World) (installedMods : list QString) :
  ∀ (acc : gmap string QVariant) (key : QString),
    is_Some (acc !! key) → is_Some (loadModsLoop w installedMods acc !! key).
Proof.
  induction installedMods as [|name rest IH]; cbn [loadModsLoop]; intros acc key Hkey;
    [done |].
  destruct (existsResource w (getModFile name)); [|by apply IH].
  apply IH. destruct (decide (toLower name = key)) as [<- | Hne].
  - by rewrite lookup_insert_eq.
  - by rewrite lookup_insert_ne.
Qed.

Lemma loadModsLoop_has (w : World) (installedMods : list QString) :
  ∀ (acc : gmap string QVariant) (name : QString),
    name ∈ installedMods →
    existsResource w (getModFile name) = true →
    is_Some (loadModsLoop w installedMods acc !! toLower name).
Proof.
  induction installedMods as [|x rest IH]; intros acc name Hin Hres;
    [by apply elem_of_nil in Hin |].
  cbn [loadModsLoop]. apply elem_of_cons in Hin as [-> | Hin].
  - rewrite Hres. apply loadModsLoop_keeps. by rewrite lookup_insert_eq.
  - destruct (existsResource w (getModFile x)); by apply IH.
Qed.

Lemma loadMods_lowerKeys (m : CModManager) (w : World) : lowerKeys (loadMods m w).
Proof.
  intros key Hkey. cbn in Hkey.
  destruct (loadModsLoop_keys _ _ _ _ Hkey) as [Hempty | (name & _ & _ & ->)].
  - rewrite lookup_empty in Hempty. by destruct Hempty.
  - apply toLower_idem.
Qed.

Lemma addError_localMods (modname message : QString) (m : CModManager) :
  localMods (addError modname message m).2 = localMods m.
Proof. reflexivity. Qed.

Lemma validator_localMods (t : Transition) (m : CModManager) :
  localMods (validator t m).2 = localMods m.
Proof.
  destruct (validator_verdict t m) as [-> | (modname & message & ->)]; done.
Qed.

Lemma lowerKeys_same (m m' : CModManager) :
  localMods m' = localMods m → lowerKeys m → lowerKeys m'.
Proof. unfold lowerKeys. by intros ->. Qed.

Lemma installFromArchive_lowerKeys (modname archivePath : QString)
    (m : CModManager) (w : World) :
  lowerKeys m → lowerKeys (installFromArchive modname archivePath m w).1.2.
Proof.
  intros Hm. unfold installFromArchive.
  destruct (size _ =? 0)%Z; [done |].
  destruct (ZipArchive_extract _ _ _ w) as [[] w1]; cbn [negb].
  - destruct (QFile_rename _ _ w1) as [rc w2]. cbn [fst snd].
    intros key Hkey. cbn in Hkey.
    destruct (loadModsLoop_keys _ _ _ _ Hkey) as [Hempty | (name & _ & _ & ->)].
    + rewrite lookup_empty in Hempty. by destruct Hempty.
    + apply toLower_idem.
  - by destruct (removeModDir _ w1).
Qed.

Lemma doUninstallMod_lowerKeys (modname : QString) (m : CModManager) (w : World) :
  lowerKeys m → lowerKeys (doUninstallMod modname m w).1.2.
Proof.
  intros Hm. unfold doUninstallMod.
  destruct (QDir_exists w _); cbn [negb]; [|done].
  destruct (removeModDir _ w) as [[] w1]; cbn [negb]; [|done].
  cbn [fst snd]. intros key Hkey. cbn in Hkey.
  destruct (loadModsLoop_keys _ _ _ _ Hkey) as [Hempty | (name & _ & _ & ->)].
  - rewrite lookup_empty in Hempty. by destruct Hempty.
  - apply toLower_idem.
Qed.

Lemma doEnableMod_localMods (mod_ : QString) (on : bool) (m : CModManager) (w : World) :
  localMods (doEnableMod mod_ on m w).1.2 = localMods m.
Proof. unfold doEnableMod. by destruct (index _ _). Qed.

Lemma perform_lowerKeys (t : Transition) (m : CModManager) (w : World) :
  lowerKeys m → lowerKeys (perform t m w).1.2.
Proof.
  intros Hm.
  pose proof (validator_localMods t m) as Hsame.
  destruct t as [modname archivePath | modname | modname | modname];
    cbn [perform validator] in *;
    unfold installMod, uninstallMod, enableMod, disableMod, andThen.
  - destruct (canInstallMod modname m) as [[] m1]; cbn [snd] in Hsame;
      [|by apply (lowerKeys_same m)].
    pose proof (lowerKeys_same m m1 Hsame Hm) as Hm1.
    unfold doInstallMod.
    destruct (QFile_exists w archivePath); cbn [negb]; [|done].
    destruct (containsKey modname (localMods m1)); [done |].
    by apply installFromArchive_lowerKeys.
  - destruct (canUninstallMod modname m) as [[] m1]; cbn [snd] in Hsame;
      [|by apply (lowerKeys_same m)].
    by apply doUninstallMod_lowerKeys, (lowerKeys_same m).
  - destruct (canEnableMod modname m) as [[] m1]; cbn [snd] in Hsame;
      [|by apply (lowerKeys_same m)].
    apply (lowerKeys_same m); [|done]. by rewrite doEnableMod_localMods.
  - destruct (canDisableMod modname m) as [[] m1]; cbn [snd] in Hsame;
      [|by apply (lowerKeys_same m)].
    apply (lowerKeys_same m); [|done]. by rewrite doEnableMod_localMods.
Qed.

(** C10. [loadMods] builds [localMods] with, for every key, an
    installed mod whose name in lower case is the key.  The keys are in
    lower case in the manager that the constructor makes, and they stay
    so through every public operation.  So the check of [doInstallMod],
    [localMods.contains(modname)], holds only for a name that is its own
    lower-case form: a name with a capital letter passes it and goes on
    to the archive, also when its lower-case form is the key of an
    installed mod. *)
Theorem localMods_keys_lowercase (ml : CModList) (m : CModManager) (w : World) :
  (∀ key, is_Some (localMods (loadMods m w) !! key) →
          ∃ name, name ∈ getAllMods w
                  ∧ existsResource w (getModFile name) = true
                  ∧ key = toLower name)
  ∧ (∀ name, name ∈ getAllMods w → existsResource w (getModFile name) = true →
             containsKey (toLower name) (localMods (loadMods m w)) = true)
  ∧ lowerKeys (create ml w)
  ∧ (∀ t w', lowerKeys m → lowerKeys (perform t m w').1.2)
  ∧ (lowerKeys m →
     ∀ modname archivePath w',
       (containsKey modname (localMods m) = true → toLower modname = modname)
       ∧ (toLower modname ≠ modname →
          containsKey modname (localMods m) = false
          ∧ (QFile_exists w' archivePath = true →
             doInstallMod modname archivePath m w'
             = installFromArchive modname archivePath m w'))).
Proof.
  split.
  { intros key Hkey. cbn in Hkey.
    destruct (loadModsLoop_keys _ _ _ _ Hkey) as [Hempty | (name & Hn & Hr & ->)].
    - rewrite lookup_empty in Hempty. by destruct Hempty.
    - by exists name. }
  split.
  { intros name Hin Hres. apply containsKey_true. cbn. by apply loadModsLoop_has. }
  split.
  { unfold create, loadModSettings. destruct (index _ _) as [active ms].
    apply (lowerKeys_same (loadMods (mkCModManager ml ∅ ∅ []) w)); [done |].
    apply loadMods_lowerKeys. }
  split; [intros t w' Hm; by apply perform_lowerKeys |].
  intros Hm modname archivePath w'.
  assert (Hlower : containsKey modname (localMods m) = true → toLower modname = modname).
  { intros Hc. apply containsKey_true in Hc. by apply Hm. }
  split; [exact Hlower |].
  intros Hcapital.
  assert (Hpass : containsKey modname (localMods m) = false).
  { destruct (containsKey modname (localMods m)) eqn:Hc; [|done].
    exfalso. by apply Hcapital, Hlower. }
  split; [exact Hpass |].
  intros Hfile. unfold doInstallMod. by rewrite Hfile, Hpass.
Qed.

(** *** A manifest at the root of the archive *)

(** What the code does with a manifest at the root.
    [detectModArchive] takes no manifest from the root of the archive: the entry [mod.json] is a manifest at
    neither level and leaves the result as it is without it.  When the
    rest of the listing holds no manifest one or two folders deep, the
    result is the empty string, which is also the result for no manifest
    at all, and [doInstallMod] rejects the archive as invalid or
    corrupted and leaves the world as it is. *)
Theorem root_manifest_not_accepted (before after : list QString)
    (modname archivePath : QString) (m : CModManager) (w : World) :
  QFile_exists w archivePath = true →
  containsKey modname (localMods m) = false →
  ZipArchive_listFiles w archivePath = (before ++ "mod.json" :: after)%list →
  Archive.detectModArchive (before ++ after)%list = "" →
  Archive.detectModArchive (before ++ "mod.json" :: after)%list
  = Archive.detectModArchive (before ++ after)%list
  ∧ Archive.detectModArchive (before ++ "mod.json" :: after)%list
    = Archive.detectModArchive []
  ∧ doInstallMod modname archivePath m w
    = (addError modname "Mod archive is invalid or corrupted" m, w).
Proof.
  intros Hfile Hnew Hlist Hrest.
  pose proof (detectModArchive_skip_root before after) as Hskip.
  split; [exact Hskip |]. split; [by rewrite Hskip, Hrest |].
  unfold doInstallMod, installFromArchive.
  rewrite Hfile, Hnew, Hlist, Hskip, Hrest. reflexivity.
Qed.

(** *** The error log *)

(** Errors are kept in the order in which they were added. *)
Lemma addError_appends (modname message : QString) (m : CModManager) :
  recentErrors (addError modname message m).2
  = (recentErrors m ++ [errorText modname message])%list.
Proof. reflexivity. Qed.

(** [getErrors] returns the log and empties it; nothing else changes. *)
Lemma getErrors_drains (m : CModManager) :
  (getErrors m).1 = recentErrors m
  ∧ recentErrors (getErrors m).2 = []
  ∧ (getErrors (getErrors m).2).1 = []
  ∧ modList (getErrors m).2 = modList m
  ∧ localMods (getErrors m).2 = localMods m
  ∧ modSettings (getErrors m).2 = modSettings m.
Proof. by repeat split. Qed.

(** X19. For names without [%], the log read after a run of errors
    holds the texts [name: message] of the run, the oldest first, behind
    what it held before; and it is empty afterwards. *)
Lemma getErrors_plain (errors : list (QString * QString)) (m : CModManager) :
  Forall (λ e, hasChar "%" e.1 = false) errors →
  (getErrors (addErrors errors m)).1
  = (recentErrors m ++ map (λ e, (e.1 ++ ": " ++ e.2)%string) errors)%list
  ∧ recentErrors (getErrors (addErrors errors m)).2 = [].
Proof.
  intros Hnames. split; [|done]. cbn [getErrors fst].
  revert m. induction Hnames as [|[modname message] errors Hname _ IH]; intros m.
  - cbn. by rewrite app_nil_r.
  - cbn [addErrors map]. rewrite IH. cbn [addError snd recentErrors set_recentErrors].
    rewrite errorText_plain by done. by rewrite <- app_assoc.
Qed.

End OperationFacts.

Section OperationExamples.

Import Manager Reference.

(** Installing [b], which is installed, is rejected by the validator. *)
Lemma rejection_is_atomic_witness :
  ∃ entry,
    (perform (Install "b" "/tmp/foo.zip") (managerOf tableDependent) home).1.1 = false
    ∧ recentErrors
        (perform (Install "b" "/tmp/foo.zip") (managerOf tableDependent) home).1.2
      = ([] ++ [entry])%list
    ∧ modList (perform (Install "b" "/tmp/foo.zip") (managerOf tableDependent) home).1.2
      = tableDependent
    ∧ localMods (perform (Install "b" "/tmp/foo.zip") (managerOf tableDependent) home).1.2
      = ∅
    ∧ modSettings (perform (Install "b" "/tmp/foo.zip") (managerOf tableDependent) home).1.2
      = ∅
    ∧ (perform (Install "b" "/tmp/foo.zip") (managerOf tableDependent) home).2 = home.
Proof.
  apply (rejection_is_atomic (Install "b" "/tmp/foo.zip") (managerOf tableDependent) home).
  reflexivity.
Defined.

(** The mod [Foo] is installed under the key [foo]; the request [Foo]
    passes the check of [doInstallMod]. *)
Lemma localMods_keys_lowercase_witness :
  "Foo" ∈ getAllMods home
  ∧ containsKey "foo" (localMods (create tableEmpty home)) = true
  ∧ containsKey "Foo" (localMods (create tableEmpty home)) = false
  ∧ doInstallMod "Foo" "/tmp/foo.zip" (create tableEmpty home) home
    = installFromArchive "Foo" "/tmp/foo.zip" (create tableEmpty home) home.
Proof.
  destruct (localMods_keys_lowercase tableEmpty (create tableEmpty home) home)
    as (_ & _ & Hcreate & _ & Hcheck).
  destruct (Hcheck Hcreate "Foo" "/tmp/foo.zip" home) as [_ Hpass].
  assert (Hcapital : toLower "Foo" ≠ "Foo") by discriminate.
  destruct (Hpass Hcapital) as [Hno Hgo].
  split; [cbn; apply list_elem_of_further, list_elem_of_here |].
  split; [reflexivity |]. split; [exact Hno |].
  apply Hgo. reflexivity.
Defined.


(** The archive [/tmp/root.zip]: its manifest at the root counts for
    nothing and the install of [newmod] from it is rejected. *)
Lemma root_manifest_not_accepted_witness :
  Archive.detectModArchive ([] ++ "mod.json" :: ["content/readme.txt"])%list
  = Archive.detectModArchive ([] ++ ["content/readme.txt"])%list
  ∧ Archive.detectModArchive ([] ++ "mod.json" :: ["content/readme.txt"])%list
    = Archive.detectModArchive []
  ∧ doInstallMod "newmod" "/tmp/root.zip" (managerOf tableAvailable) home
    = (addError "newmod" "Mod archive is invalid or corrupted" (managerOf tableAvailable),
       home).
Proof.
  apply (root_manifest_not_accepted [] ["content/readme.txt"] "newmod" "/tmp/root.zip"
           (managerOf tableAvailable) home); reflexivity.
Defined.

(** Enabling [a] when the settings file cannot be written: the call
    returns true and logs no error, the manager holds the new flag, the
    file holds nothing. *)
Lemma enableMod_unsaved :
  (enableMod (PF := readOnlySettings) "a" (managerOf tableEnable) home).1.1 = true
  ∧ recentErrors
      (enableMod (PF := readOnlySettings) "a" (managerOf tableEnable) home).1.2 = []
  ∧ Settings.lookupKeys ["activeMods"; "a"; "active"]
      (VMap (modSettings
               (enableMod (PF := readOnlySettings) "a" (managerOf tableEnable) home).1.2))
    = VBool true
  ∧ settingsFile (enableMod (PF := readOnlySettings) "a" (managerOf tableEnable) home).2
    = ∅.
Proof. repeat split; vm_compute; reflexivity. Qed.

(** C8 on the code: the name [%1] is itself a place marker.  The first
    [arg] puts it where [%1] stood, the second [arg] takes it for the
    lowest marker and puts the message there: the log holds "Mod is not
    installed: %2" and not "%1: Mod is not installed".  Reading the log
    empties it all the same. *)
Lemma getErrors_marker_in_name :
  (uninstallMod "%1" (managerOf tableEmpty) home).1.1 = false
  ∧ (getErrors (uninstallMod "%1" (managerOf tableEmpty) home).1.2).1
    = ["Mod is not installed: %2"]
  ∧ (getErrors (uninstallMod "%1" (managerOf tableEmpty) home).1.2).1
    ≠ ["%1: Mod is not installed"]
  ∧ (getErrors (getErrors (uninstallMod "%1" (managerOf tableEmpty) home).1.2).2).1 = [].
Proof. repeat split; try reflexivity. discriminate. Qed.

End OperationExamples.

(** * Further properties *)

(** ** The validators, case by case *)

Section ValidatorCases.

Import Manager.

Context {ML : ModListApi}.

Lemma listContains_false (l : QStringList) (s : QString) :
  listContains l s = false ↔ s ∉ l.
Proof.
  rewrite <- listContains_elem. by destruct (listContains l s).
Qed.

Lemma dependsLoop_all (ml : CModList) (entries : QStringList) :
  (∀ d, d ∈ entries → hasMod ml d = true ∧ isEnabled (getMod ml d) = true) →
  dependsLoop ml entries = None.
Proof.
  induction entries as [|e entries IH]; intros Hall; [done |].
  cbn [dependsLoop].
  destruct (Hall e (list_elem_of_here _ _)) as [-> ->]. cbn [negb].
  apply IH. intros d Hd. apply Hall. by apply list_elem_of_further.
Qed.

Lemma reverseConflictLoop_all (ml : CModList) (modname : QString) (entries : list QString) :
  (∀ e, e ∈ entries → isEnabled (getMod ml e) = true →
        modname ∉ getValue_toStringList (getMod ml e) "conflicts") →
  reverseConflictLoop ml modname entries = None.
Proof.
  induction entries as [|x entries IH]; intros Hall; [done |].
  cbn [reverseConflictLoop].
  destruct (isEnabled (getMod ml x)) eqn:Hen; cbn [andb].
  - pose proof (Hall x (list_elem_of_here _ _) Hen) as Hnot.
    apply listContains_false in Hnot. rewrite Hnot.
    apply IH. intros e He. apply Hall. by apply list_elem_of_further.
  - apply IH. intros e He. apply Hall. by apply list_elem_of_further.
Qed.

Lemma conflictLoop_all (ml : CModList) (entries : QStringList) :
  (∀ c, c ∈ entries → ¬ (hasMod ml c = true ∧ isEnabled (getMod ml c) = true)) →
  conflictLoop ml entries = None.
Proof.
  induction entries as [|x entries IH]; intros Hall; [done |].
  cbn [conflictLoop].
  destruct (hasMod ml x && isEnabled (getMod ml x)) eqn:Hx.
  - apply andb_true_iff in Hx. by destruct (Hall x (list_elem_of_here _ _)).
  - apply IH. intros c Hc. apply Hall. by apply list_elem_of_further.
Qed.

(** X1. [canEnableMod] accepts, and leaves the manager as it is, every
    package that is not enabled, installed and compatible, whose
    dependencies are all known and enabled, that no enabled package of
    the list excludes and that excludes no known enabled package. *)
Theorem canEnableMod_complete (modname : QString) (m : CModManager) :
  isEnabled (getMod (modList m) modname) = false →
  isInstalled (getMod (modList m) modname) = true →
  isCompatible (getMod (modList m) modname) = true →
  (∀ d, d ∈ getValue_toStringList (getMod (modList m) modname) "depends" →
        hasMod (modList m) d = true ∧ isEnabled (getMod (modList m) d) = true) →
  (∀ e, e ∈ getModList (modList m) → isEnabled (getMod (modList m) e) = true →
        modname ∉ getValue_toStringList (getMod (modList m) e) "conflicts") →
  (∀ c, c ∈ getValue_toStringList (getMod (modList m) modname) "conflicts" →
        ¬ (hasMod (modList m) c = true ∧ isEnabled (getMod (modList m) c) = true)) →
  canEnableMod modname m = (true, m).
Proof.
  intros Hen Hinst Hcomp Hdep Hrev Hcon. unfold canEnableMod.
  rewrite Hen, Hinst, Hcomp. cbn [negb].
  by rewrite (dependsLoop_all _ _ Hdep), (reverseConflictLoop_all _ _ _ Hrev),
    (conflictLoop_all _ _ Hcon).
Qed.

Lemma dependsLoop_first (ml : CModList) (passed rest : QStringList) (d : QString) :
  Forall (λ x, hasMod ml x = true ∧ isEnabled (getMod ml x) = true) passed →
  hasMod ml d && isEnabled (getMod ml d) = false →
  dependsLoop ml (passed ++ d :: rest)%list
  = Some (if hasMod ml d
          then "Required mod " ++ d ++ " is not enabled"
          else "Required mod " ++ d ++ " is missing").
Proof.
  intros Hpassed Hd.
  induction Hpassed as [|x passed [Hx1 Hx2] _ IH]; cbn [app dependsLoop].
  - destruct (hasMod ml d); cbn [negb andb] in *.
    + rewrite Hd. cbn [negb]. unfold arg. simpl. reflexivity.
    + by rewrite arg_missing.
  - by rewrite Hx1, Hx2.
Qed.

(** X2. A package that passes the three state checks and has a
    dependency that is unknown or not enabled is rejected with the text
    for the first such dependency: "Required mod d is missing" when the
    list does not know [d], "Required mod d is not enabled" when it
    does. *)
Theorem canEnableMod_dependency_named (modname d : QString)
    (passed rest : QStringList) (m : CModManager) :
  isEnabled (getMod (modList m) modname) = false →
  isInstalled (getMod (modList m) modname) = true →
  isCompatible (getMod (modList m) modname) = true →
  getValue_toStringList (getMod (modList m) modname) "depends"
  = (passed ++ d :: rest)%list →
  Forall (λ x, hasMod (modList m) x = true ∧ isEnabled (getMod (modList m) x) = true)
    passed →
  hasMod (modList m) d && isEnabled (getMod (modList m) d) = false →
  canEnableMod modname m
  = addError modname
      (if hasMod (modList m) d
       then "Required mod " ++ d ++ " is not enabled"
       else "Required mod " ++ d ++ " is missing") m.
Proof.
  intros Hen Hinst Hcomp Hdeps Hpassed Hd. unfold canEnableMod.
  rewrite Hen, Hinst, Hcomp, Hdeps. cbn [negb].
  by rewrite (dependsLoop_first _ _ _ _ Hpassed Hd).
Qed.

Lemma reverseConflictLoop_first (ml : CModList) (modname e : QString)
    (passed rest : list QString) :
  Forall (λ x, isEnabled (getMod ml x) = true →
               modname ∉ getValue_toStringList (getMod ml x) "conflicts") passed →
  isEnabled (getMod ml e) = true →
  modname ∈ getValue_toStringList (getMod ml e) "conflicts" →
  reverseConflictLoop ml modname (passed ++ e :: rest)%list
  = Some ("This mod conflicts with " ++ e).
Proof.
  intros Hpassed Hen Hin.
  induction Hpassed as [|x passed Hx _ IH]; cbn [app reverseConflictLoop].
  - apply listContains_elem in Hin. by rewrite Hen, Hin, arg_conflicts.
  - destruct (isEnabled (getMod ml x)) eqn:Hxen; cbn [andb]; [|done].
    specialize (Hx eq_refl). apply listContains_false in Hx. by rewrite Hx.
Qed.

(** X3. The reverse conflict: a package that passes the state checks
    and the dependency check is rejected with "This mod conflicts with
    e" for the first package [e] of the list that is enabled and names
    it in its [conflicts], whatever its own [conflicts] say. *)
Theorem canEnableMod_reverse_conflict_named (modname e : QString)
    (passed rest : list QString) (m : CModManager) :
  isEnabled (getMod (modList m) modname) = false →
  isInstalled (getMod (modList m) modname) = true →
  isCompatible (getMod (modList m) modname) = true →
  (∀ d, d ∈ getValue_toStringList (getMod (modList m) modname) "depends" →
        hasMod (modList m) d = true ∧ isEnabled (getMod (modList m) d) = true) →
  getModList (modList m) = (passed ++ e :: rest)%list →
  Forall (λ x, isEnabled (getMod (modList m) x) = true →
               modname ∉ getValue_toStringList (getMod (modList m) x) "conflicts")
    passed →
  isEnabled (getMod (modList m) e) = true →
  modname ∈ getValue_toStringList (getMod (modList m) e) "conflicts" →
  canEnableMod modname m = addError modname ("This mod conflicts with " ++ e) m.
Proof.
  intros Hen Hinst Hcomp Hdep Hlist Hpassed He Hin. unfold canEnableMod.
  rewrite Hen, Hinst, Hcomp, Hlist. cbn [negb].
  by rewrite (dependsLoop_all _ _ Hdep),
    (reverseConflictLoop_first _ _ _ _ _ Hpassed He Hin).
Qed.

Lemma conflictLoop_first (ml : CModList) (c : QString) (passed rest : QStringList) :
  Forall (λ x, ¬ (hasMod ml x = true ∧ isEnabled (getMod ml x) = true)) passed →
  hasMod ml c = true → isEnabled (getMod ml c) = true →
  conflictLoop ml (passed ++ c :: rest)%list = Some ("This mod conflicts with " ++ c).
Proof.
  intros Hpassed Hhas Hen.
  induction Hpassed as [|x passed Hx _ IH]; cbn [app conflictLoop].
  - by rewrite Hhas, Hen, arg_conflicts.
  - destruct (hasMod ml x && isEnabled (getMod ml x)) eqn:Hboth; [|done].
    apply andb_true_iff in Hboth. by destruct Hx.
Qed.

(** X4. The own conflict: a package that passes the state checks, the
    dependency check and the reverse-conflict check is rejected with
    "This mod conflicts with c" for the first name [c] of its
    [conflicts] that is a known and enabled package. *)
Theorem canEnableMod_conflict_named (modname c : QString)
    (passed rest : QStringList) (m : CModManager) :
  isEnabled (getMod (modList m) modname) = false →
  isInstalled (getMod (modList m) modname) = true →
  isCompatible (getMod (modList m) modname) = true →
  (∀ d, d ∈ getValue_toStringList (getMod (modList m) modname) "depends" →
        hasMod (modList m) d = true ∧ isEnabled (getMod (modList m) d) = true) →
  (∀ e, e ∈ getModList (modList m) → isEnabled (getMod (modList m) e) = true →
        modname ∉ getValue_toStringList (getMod (modList m) e) "conflicts") →
  getValue_toStringList (getMod (modList m) modname) "conflicts"
  = (passed ++ c :: rest)%list →
  Forall (λ x, ¬ (hasMod (modList m) x = true ∧ isEnabled (getMod (modList m) x) = true))
    passed →
  hasMod (modList m) c = true →
  isEnabled (getMod (modList m) c) = true →
  canEnableMod modname m = addError modname ("This mod conflicts with " ++ c) m.
Proof.
  intros Hen Hinst Hcomp Hdep Hrev Hcon Hpassed Hhas Hcen. unfold canEnableMod.
  rewrite Hen, Hinst, Hcomp, Hcon. cbn [negb].
  by rewrite (dependsLoop_all _ _ Hdep), (reverseConflictLoop_all _ _ _ Hrev),
    (conflictLoop_first _ _ _ _ Hpassed Hhas Hcen).
Qed.

Lemma dependentsLoop_None_iff (ml : CModList) (modname : QString) (entries : list QString) :
  dependentsLoop ml modname entries = None
  ↔ ∀ e, e ∈ entries → isEnabled (getMod ml e) = true →
         modname ∉ getValue_toStringList (getMod ml e) "depends".
Proof.
  induction entries as [|x entries IH]; cbn [dependentsLoop].
  - split; [|done]. intros _ e He. by apply elem_of_nil in He.
  - destruct (listContains (getValue_toStringList (getMod ml x) "depends") modname)
      eqn:Hc; destruct (isEnabled (getMod ml x)) eqn:Hen; cbn [andb].
    + split; [done |]. intros Hall. apply listContains_elem in Hc.
      by destruct (Hall x (list_elem_of_here _ _) Hen).
    + rewrite IH. split.
      * intros Hall e He Hee. apply elem_of_cons in He as [-> | He]; [congruence |].
        by apply Hall.
      * intros Hall e He. apply Hall. by apply list_elem_of_further.
    + rewrite IH. apply listContains_false in Hc. split.
      * intros Hall e He Hee. apply elem_of_cons in He as [-> | He]; [done |].
        by apply Hall.
      * intros Hall e He. apply Hall. by apply list_elem_of_further.
    + rewrite IH. split.
      * intros Hall e He Hee. apply elem_of_cons in He as [-> | He]; [congruence |].
        by apply Hall.
      * intros Hall e He. apply Hall. by apply list_elem_of_further.
Qed.

(** X5. [canDisableMod] accepts exactly the packages that are not
    disabled, installed, and needed by no enabled package of the list;
    when it accepts, the manager is as it was. *)
Theorem canDisableMod_accepts_iff (modname : QString) (m : CModManager) :
  ((canDisableMod modname m).1 = true
   ↔ isDisabled (getMod (modList m) modname) = false
     ∧ isInstalled (getMod (modList m) modname) = true
     ∧ ∀ e, e ∈ getModList (modList m) → isEnabled (getMod (modList m) e) = true →
            modname ∉ getValue_toStringList (getMod (modList m) e) "depends")
  ∧ ((canDisableMod modname m).1 = true → (canDisableMod modname m).2 = m).
Proof.
  unfold canDisableMod.
  destruct (isDisabled (getMod (modList m) modname)).
  { split; [|done]. split; [done | by intros (? & _)]. }
  destruct (isInstalled (getMod (modList m) modname)); cbn [negb].
  2: { split; [|done]. split; [done | by intros (_ & ? & _)]. }
  destruct (dependentsLoop (modList m) modname (getModList (modList m))) eqn:Hloop.
  - split; [|done]. split; [done |]. intros (_ & _ & Hall).
    apply dependentsLoop_None_iff in Hall. congruence.
  - split; [|done]. split; [|done]. intros _. repeat split.
    by apply dependentsLoop_None_iff.
Qed.

End ValidatorCases.

(** ** Writing twice, and reading elsewhere *)

Section SettingsMore.

Import Settings Notions.

Local Open Scope nat_scope.

Lemma overwrite_at (n : nat) :
  ∀ (path : QString) (input : gmap string QVariant) (v1 v2 : QVariant),
    String.length path = n →
    writeValue path (toMap (writeValue path input v1)) v2 = writeValue path input v2.
Proof.
  induction n as [n IH] using lt_wf_ind. intros path input v1 v2 Hlen.
  rewrite (writeValue_eq path input v1), (writeValue_eq path input v2),
    (writeValue_eq path _ v2).
  destruct (size path >? 1)%Z eqn:Hsize; [|done].
  pose proof (remainder_shorter path Hsize) as Hshort.
  cbn [toMap]. rewrite value_insert, insert_insert_eq.
  assert (Hlt : String.length (remainder path) < n) by lia.
  by rewrite (IH _ Hlt (remainder path) _ v1 v2 eq_refl).
Qed.

(** X6. The last write wins: writing [v2] at a path of a document in
    which [v1] was written at that path gives the document of writing
    [v2] alone; in particular writing the same value twice is writing
    it once. *)
Theorem writeValue_overwrite (path : QString) (input : gmap string QVariant)
    (v1 v2 : QVariant) :
  writeValue path (toMap (writeValue path input v1)) v2 = writeValue path input v2.
Proof. by apply (overwrite_at (String.length path)). Qed.

Lemma lookupKeys_toMap (keys : list QString) (node : QVariant) :
  keys ≠ [] → lookupKeys keys (VMap (toMap node)) = lookupKeys keys node.
Proof. by destruct keys. Qed.

Lemma diverge_nonempty (keys keys' : list QString) : diverge keys keys' → keys' ≠ [].
Proof. by destruct keys, keys'. Qed.

Lemma frame_at (n : nat) :
  ∀ (path : QString) (keys' : list QString) (input : gmap string QVariant)
    (value : QVariant),
    String.length path = n →
    diverge (pathKeys path) keys' →
    lookupKeys keys' (writeValue path input value) = lookupKeys keys' (VMap input).
Proof.
  induction n as [n IH] using lt_wf_ind. intros path keys' input value Hlen.
  rewrite pathKeys_eq, writeValue_eq.
  destruct (size path >? 1)%Z eqn:Hsize; [|done].
  pose proof (remainder_shorter path Hsize) as Hshort.
  destruct keys' as [|k' rest']; [done |].
  cbn [diverge lookupKeys toMap]. intros [Hne | [<- Hrest]].
  - unfold QtVariant.value. by rewrite lookup_insert_ne.
  - rewrite value_insert.
    assert (Hlt : String.length (remainder path) < n) by lia.
    rewrite (IH _ Hlt (remainder path) rest' _ value eq_refl Hrest).
    apply lookupKeys_toMap. by apply (diverge_nonempty _ _ Hrest).
Qed.

(** X7. Writing at a path changes nothing that is read along keys
    which part from the keys of the path: the read gives what it gave
    in the document before the write. *)
Theorem writeValue_frame (path : QString) (keys' : list QString)
    (input : gmap string QVariant) (value : QVariant) :
  diverge (pathKeys path) keys' →
  lookupKeys keys' (writeValue path input value) = lookupKeys keys' (VMap input).
Proof. by apply (frame_at (String.length path)). Qed.

(** The fields of a route behind its leading separator are its keys. *)
Lemma split_route (k : QString) (keys : list QString) :
  Forall (λ x, hasChar "/" x = false) (k :: keys) →
  split "/" (route (k :: keys)) = "" :: k :: keys.
Proof.
  revert k. induction keys as [|k' keys IH]; intros k Hsep.
  - apply Forall_cons in Hsep as [Hk _]. cbn [route].
    rewrite append_empty_r. by apply split_key_last.
  - apply Forall_cons in Hsep as [Hk Hsep].
    rewrite (route_cons k (k' :: keys)), (route_cons k' keys).
    change (String "/" (k ++ String "/" (k' ++ route keys)))
      with ("/" ++ k ++ String "/" (k' ++ route keys)).
    rewrite split_key_more by done. f_equal. f_equal.
    specialize (IH k' Hsep). rewrite (route_cons k' keys) in IH.
    cbn [split] in IH. rewrite Ascii.eqb_refl in IH. by injection IH.
Qed.

Lemma segments_route (keys : list QString) :
  Forall (λ x, hasChar "/" x = false) keys → segments (route keys) = keys.
Proof.
  destruct keys as [|k keys]; [done |].
  intros Hsep. unfold segments. by rewrite split_route.
Qed.

(** C5, as the code has it. For a path [/k1/.../kn] whose keys hold no
    separator and whose last key is not empty, and every document and
    value: the fields of the path are the keys, reading the result of
    the write key by key along them gives the value, and at every node
    on the way every other key is still there with the subtree it
    had. *)
Theorem writeValue_route_roundtrip (keys : list QString)
    (input : gmap string QVariant) (value : QVariant) :
  Forall (λ k, hasChar "/" k = false) keys →
  List.last keys "x" ≠ "" →
  segments (route keys) = keys
  ∧ readPath (route keys) (writeValue (route keys) input value) = value
  ∧ siblingsAlong keys input (toMap (writeValue (route keys) input value)).
Proof.
  intros Hsep Hlast.
  pose proof (segments_route keys Hsep) as Hsegments.
  destruct (roundtrip_at (String.length (route keys)) (route keys) input value eq_refl)
    as [Hread Hkept].
  unfold readValue, siblingsKept in *.
  rewrite (pathKeys_route keys Hsep Hlast) in Hread, Hkept.
  split; [exact Hsegments |]. unfold readPath. rewrite Hsegments. by split.
Qed.

(** The path of [doEnableMod] starts with the entry [activeMods]. *)
Lemma activePath_entry (mod_ : QString) :
  (size (activePath mod_) >? 1)%Z = true ∧ entryName (activePath mod_) = "activeMods".
Proof.
  unfold activePath. split.
  - unfold size. rewrite Z.gtb_ltb, Z.ltb_lt, length_append. simpl String.length. lia.
  - unfold entryName. rewrite section_0_1.
    change ("/activeMods/" ++ replace "." "/mods/" mod_ ++ "/active")
      with ("/" ++ "activeMods" ++ String "/" (replace "." "/mods/" mod_ ++ "/active")).
    rewrite split_key_more by done. reflexivity.
Qed.

Lemma writeValue_activePath_map (mod_ : QString) (input : gmap string QVariant)
    (value : QVariant) :
  ∃ below, writeValue (activePath mod_) input value
           = VMap (<["activeMods" := below]> input).
Proof.
  destruct (activePath_entry mod_) as [Hsize Hentry].
  rewrite writeValue_eq, Hsize, Hentry. by eexists.
Qed.

(** The keys of two different mods part. *)
Lemma submodKeys_diverge (fields fields' : list QString) :
  fields ≠ [] → fields' ≠ [] → fields ≠ fields' →
  diverge (submodKeys fields ++ ["active"])%list (submodKeys fields' ++ ["active"])%list.
Proof.
  revert fields'. induction fields as [|f rest IH]; intros fields' Hne Hne' Hdiff; [done |].
  destruct fields' as [|g rest']; [done |].
  destruct (decide (f = g)) as [<- | Hfg].
  2: { destruct rest, rest'; cbn; by left. }
  assert (Hrest : rest ≠ rest') by congruence.
  destruct rest as [|x rest]; destruct rest' as [|y rest']; [done | | |].
  - cbn. right. split; [done |]. by left.
  - cbn. right. split; [done |]. by left.
  - change (submodKeys (f :: x :: rest)) with (f :: "mods" :: submodKeys (x :: rest)).
    change (submodKeys (f :: y :: rest')) with (f :: "mods" :: submodKeys (y :: rest')).
    cbn [app diverge]. right. split; [done |]. right. split; [done |].
    by apply IH.
Qed.

Lemma activeKeys_diverge (a b : QString) :
  a ≠ b → diverge (activeKeys a) (activeKeys b).
Proof.
  intros Hab. unfold activeKeys. cbn [diverge]. right. split; [done |].
  destruct (split_cons "." a) as (fa & ra & Ea).
  destruct (split_cons "." b) as (fb & rb & Eb).
  apply submodKeys_diverge; [by rewrite Ea | by rewrite Eb |].
  intros Heq. apply Hab.
  by rewrite <- (join_split "." a), <- (join_split "." b), Heq.
Qed.

End SettingsMore.

(** ** What an operation leaves behind *)

Section OperationOutcomes.

Import Manager Notions.

Context {ML : ModListApi} {PF : Platform}.

Lemma installFromArchive_outcome (modname archivePath : QString)
    (m : CModManager) (w : World) :
  (∃ message, (installFromArchive modname archivePath m w).1
              = addError modname message m)
  ∨ (installFromArchive modname archivePath m w).1
    = (true, reloaded m (installFromArchive modname archivePath m w).2).
Proof.
  unfold installFromArchive.
  destruct (size _ =? 0)%Z; [left; by eexists |].
  destruct (ZipArchive_extract _ _ _ w) as [[] w1]; cbn [negb].
  - destruct (QFile_rename _ _ w1) as [rc w2]. by right.
  - destruct (removeModDir _ w1). left. by eexists.
Qed.

Lemma doInstallMod_outcome (modname archivePath : QString)
    (m : CModManager) (w : World) :
  (∃ message, (doInstallMod modname archivePath m w).1 = addError modname message m)
  ∨ (doInstallMod modname archivePath m w).1
    = (true, reloaded m (doInstallMod modname archivePath m w).2).
Proof.
  unfold doInstallMod.
  destruct (QFile_exists w archivePath); cbn [negb]; [|left; by eexists].
  destruct (containsKey modname (localMods m)); [left; by eexists |].
  apply installFromArchive_outcome.
Qed.

Lemma doUninstallMod_outcome (modname : QString) (m : CModManager) (w : World) :
  (∃ message, (doUninstallMod modname m w).1 = addError modname message m)
  ∨ (doUninstallMod modname m w).1
    = (true, reloaded m (doUninstallMod modname m w).2).
Proof.
  unfold doUninstallMod.
  destruct (QDir_exists w _); cbn [negb]; [|left; by eexists].
  destruct (removeModDir _ w) as [[] w1]; cbn [negb]; [by right | left; by eexists].
Qed.

Lemma doEnableMod_switched (mod_ : QString) (on : bool) (m : CModManager) (w : World) :
  doEnableMod mod_ on m w
  = (true, switched mod_ on m,
     JsonToFile (settingsPath w) (modSettings (switched mod_ on m)) w).
Proof.
  unfold doEnableMod, switched. fold (Settings.activePath mod_).
  destruct (writeValue_activePath_map mod_ (modSettings m) (VBool on)) as [below ->].
  cbn [toMap]. unfold index, QtVariant.value. by rewrite lookup_insert_eq.
Qed.

(** What a public operation returns: a rejection or a failure with one
    error text, a reload, or a switch. *)
Lemma perform_outcome (t : Transition) (m : CModManager) (w : World) :
  (∃ modname message, (perform t m w).1 = addError modname message m)
  ∨ (reloads t = true ∧ (perform t m w).1 = (true, reloaded m (perform t m w).2))
  ∨ (reloads t = false
     ∧ ∃ mod_ on, (perform t m w).1 = (true, switched mod_ on m)
                  ∧ (perform t m w).2
                    = JsonToFile (settingsPath w) (modSettings (switched mod_ on m)) w).
Proof.
  destruct t as [modname archivePath | modname | modname | modname];
    cbn [perform reloads]; unfold installMod, uninstallMod, enableMod, disableMod, andThen.
  - destruct (canInstallMod_verdict modname m) as [-> | [message ->]].
    + destruct (doInstallMod_outcome modname archivePath m w) as [[message H] | H].
      * left. by exists modname, message.
      * right. left. split; [done | exact H].
    + left. by exists modname, message.
  - destruct (canUninstallMod_verdict modname m) as [-> | [message ->]].
    + destruct (doUninstallMod_outcome modname m w) as [[message H] | H].
      * left. by exists modname, message.
      * right. left. split; [done | exact H].
    + left. by exists modname, message.
  - destruct (canEnableMod_verdict modname m) as [-> | [message ->]].
    + right. right. split; [done |]. exists modname, true.
      by rewrite doEnableMod_switched.
    + left. by exists modname, message.
  - destruct (canDisableMod_verdict modname m) as [-> | [message ->]].
    + right. right. split; [done |]. exists modname, false.
      by rewrite doEnableMod_switched.
    + left. by exists modname, message.
Qed.

(** X8. A public operation returns false exactly when it has added an
    error text, and then it has added one text and has left the mod
    list, the local mods and the settings as they were, also when it
    failed behind the validator (missing archive, name on disk,
    archive without manifest, failed extraction, missing or protected
    directory); when it returns true the log is as it was. *)
Theorem perform_false_iff_error (t : Transition) (m : CModManager) (w : World) :
  ((perform t m w).1.1 = false
   ∧ ∃ entry, (perform t m w).1.2
              = set_recentErrors (recentErrors m ++ [entry])%list m)
  ∨ ((perform t m w).1.1 = true
     ∧ recentErrors (perform t m w).1.2 = recentErrors m).
Proof.
  destruct (perform_outcome t m w)
    as [(modname & message & H) | [[_ H] | (_ & mod_ & on & H & _)]]; rewrite H.
  - left. split; [done |]. by exists (errorText modname message).
  - by right.
  - by right.
Qed.


(** X10. An enable or a disable that returns true has written the
    flag at the path of the mod in the settings, has left the local
    mods alone, and has handed to [JsonToFile] the settings that the
    manager now holds: what is saved is what is in memory. *)
Theorem perform_switches (t : Transition) (m : CModManager) (w : World) :
  reloads t = false →
  (perform t m w).1.1 = true →
  ∃ mod_ on,
    (t = Enable mod_ ∧ on = true ∨ t = Disable mod_ ∧ on = false)
    ∧ modSettings (perform t m w).1.2
      = toMap (Settings.writeValue (Settings.activePath mod_) (modSettings m) (VBool on))
    ∧ localMods (perform t m w).1.2 = localMods m
    ∧ (perform t m w).2
      = JsonToFile (settingsPath w) (modSettings (perform t m w).1.2) w.
Proof.
  intros Hreloads Hok.
  destruct t as [modname archivePath | modname | modname | modname]; [done | done | |];
    cbn [perform] in *; unfold enableMod, disableMod, andThen in *.
  - exists modname, true. split; [by left |].
    destruct (canEnableMod_verdict modname m) as [H | [message H]]; rewrite H in Hok |- *;
      [|done].
    by rewrite doEnableMod_switched.
  - exists modname, false. split; [by right |].
    destruct (canDisableMod_verdict modname m) as [H | [message H]]; rewrite H in Hok |- *;
      [|done].
    by rewrite doEnableMod_switched.
Qed.

(** X11. Switching a mod twice is switching it the second way: the
    settings after [doEnableMod] with [first] and then with [second]
    are the settings after [doEnableMod] with [second] alone, in
    whatever worlds the calls run. *)
Theorem doEnableMod_last_wins (mod_ : QString) (first second : bool)
    (m : CModManager) (w w' w'' : World) :
  modSettings (doEnableMod mod_ second (doEnableMod mod_ first m w).1.2 w').1.2
  = modSettings (doEnableMod mod_ second m w'').1.2.
Proof.
  rewrite !doEnableMod_switched. cbn [fst snd].
  unfold switched. cbn [modSettings set_modList set_modSettings].
  by rewrite (overwrite_at (String.length (Settings.activePath mod_))).
Qed.

(** X12. Switching a mod does not touch the flag of another mod: for
    a name [a] without [/] and any other name [b], the flag of [b],
    read key by key, is after [doEnableMod a] what it was before. *)
Theorem doEnableMod_other_flag (a b : QString) (on : bool)
    (m : CModManager) (w : World) :
  hasChar "/" a = false →
  a ≠ b →
  Settings.lookupKeys (Settings.activeKeys b)
    (VMap (modSettings (doEnableMod a on m w).1.2))
  = Settings.lookupKeys (Settings.activeKeys b) (VMap (modSettings m)).
Proof.
  intros Ha Hab. rewrite doEnableMod_switched. cbn [fst snd].
  unfold switched. cbn [modSettings set_modList set_modSettings].
  destruct (writeValue_activePath_map a (modSettings m) (VBool on)) as [below Hmap].
  rewrite Hmap. cbn [toMap]. rewrite <- Hmap.
  apply (frame_at (String.length (Settings.activePath a))); [done |].
  destruct (activeKeys_wellformed a Ha) as [Hsep Hlast].
  rewrite activePath_route, (pathKeys_route _ Hsep Hlast).
  by apply activeKeys_diverge.
Qed.

End OperationOutcomes.

(** ** What the archive inspection returns *)

Section ArchiveMore.

Import Archive Notions.

Local Open Scope nat_scope.

Lemma split_fields_no_sep (sep : ascii) (s : QString) :
  Forall (λ f, hasChar sep f = false) (split sep s).
Proof.
  induction s as [|c s IH]; cbn [split]; [by repeat constructor |].
  destruct (Ascii.eqb c sep) eqn:Hc; [by constructor |].
  destruct (split_cons sep s) as (f & fs & E). rewrite E in IH |- *.
  apply Forall_cons in IH as [Hf Hfs]. constructor; [|done].
  cbn [hasChar]. by rewrite Hc, Hf.
Qed.

Lemma countChar_append (c : ascii) (a b : QString) :
  countChar c (a ++ b) = countChar c a + countChar c b.
Proof.
  induction a as [|x a IH]; [done |].
  rewrite append_String. cbn [countChar]. rewrite IH. lia.
Qed.

Lemma countChar_no_sep (c : ascii) (s : QString) :
  hasChar c s = false → countChar c s = 0.
Proof.
  induction s as [|x s IH]; cbn [hasChar countChar]; [done |].
  intros H. apply orb_false_iff in H as [-> Hs]. by rewrite IH.
Qed.

Lemma countChar_join (sep : ascii) (fields : list QString) :
  Forall (λ f, hasChar sep f = false) fields →
  countChar sep (join sep fields) = List.length fields - 1.
Proof.
  induction 1 as [|f [|g fs] Hf Hfs IH]; [done | |].
  - cbn [join List.length]. rewrite countChar_no_sep by done. lia.
  - rewrite join_cons2, countChar_append. cbn [countChar].
    rewrite Ascii.eqb_refl, IH, countChar_no_sep by done. cbn [List.length]. lia.
Qed.

(** A manifest at level 0 or 1 is an entry [dir/mod.json] whose [dir]
    has at most as many separators as the level. *)
Lemma manifestDir_inv (folderLevel : Z) (file dir : QString) :
  folderLevel = 0%Z ∨ folderLevel = 1%Z →
  manifestDir folderLevel file = Some dir →
  file = dir ++ "/mod.json" ∧ countChar "/" dir ≤ 1.
Proof.
  intros Hlevel. unfold manifestDir.
  destruct (String.eqb_spec file (section "/" 0 folderLevel file ++ "/mod.json"))
    as [Heq|]; [|done].
  intros [= <-]. split; [exact Heq |].
  pose proof (split_fields_no_sep "/" file) as Hfields.
  destruct Hlevel as [-> | ->].
  - rewrite section_0_0, countChar_join by by apply Forall_take.
    rewrite length_take. lia.
  - rewrite section_0_1, countChar_join by by apply Forall_take.
    rewrite length_take. lia.
Qed.

Lemma searchLevel_Some (folderLevel : Z) (files : list QString) (dir : QString) :
  searchLevel folderLevel files = Some dir →
  ∃ file, file ∈ files ∧ manifestDir folderLevel file = Some dir.
Proof.
  induction files as [|x files IH]; cbn [searchLevel]; [done |].
  destruct (manifestDir folderLevel x) as [d|] eqn:Hx.
  - intros [= <-]. exists x. split; [apply list_elem_of_here | done].
  - intros H. destruct (IH H) as (file & Hin & Hm).
    exists file. split; [by apply list_elem_of_further | done].
Qed.

Lemma searchLevel_None (folderLevel : Z) (files : list QString) :
  searchLevel folderLevel files = None ↔ Forall (λ f, manifestDir folderLevel f = None) files.
Proof.
  induction files as [|x files IH]; cbn [searchLevel]; [by split |].
  destruct (manifestDir folderLevel x) eqn:Hx.
  - split; [done |]. intros H. apply Forall_cons in H as [H _]. congruence.
  - rewrite IH. split; [by constructor | by intros [_ ?]%Forall_cons].
Qed.

(** X13. Whatever [detectModArchive] returns other than the empty
    string is the folder of a manifest of the listing: the listing has
    the entry [result/mod.json], and the result is one folder name or
    two, never a deeper path. *)
Theorem detectModArchive_sound (files : list QString) :
  detectModArchive files ≠ "" →
  (detectModArchive files ++ "/mod.json") ∈ files
  ∧ countChar "/" (detectModArchive files) ≤ 1.
Proof.
  unfold detectModArchive. cbn [searchLevels].
  destruct (searchLevel 0 files) as [d|] eqn:H0.
  - intros _. destruct (searchLevel_Some _ _ _ H0) as (file & Hin & Hm).
    apply manifestDir_inv in Hm as [-> Hdepth]; auto.
  - destruct (searchLevel 1 files) as [d|] eqn:H1; [|done].
    intros _. destruct (searchLevel_Some _ _ _ H1) as (file & Hin & Hm).
    apply manifestDir_inv in Hm as [-> Hdepth]; auto.
Qed.

Lemma section_nested (outer inner rest : QString) :
  hasChar "/" outer = false → hasChar "/" inner = false →
  section "/" 0 1 (outer ++ String "/" (inner ++ String "/" rest))
  = outer ++ String "/" inner.
Proof.
  intros Houter Hinner. rewrite section_0_1, !split_app_sep by done.
  cbn [take]. by rewrite take_0, join_cons2.
Qed.

Lemma manifestDir_nested (outer inner : QString) :
  hasChar "/" outer = false → hasChar "/" inner = false →
  manifestDir 1 (outer ++ "/" ++ inner ++ "/mod.json") = Some (outer ++ "/" ++ inner).
Proof.
  intros Houter Hinner. unfold manifestDir.
  change (outer ++ "/" ++ inner ++ "/mod.json")
    with (outer ++ String "/" (inner ++ String "/" "mod.json")).
  rewrite section_nested by done.
  replace ((outer ++ String "/" inner) ++ "/mod.json")
    with (outer ++ String "/" (inner ++ String "/" "mod.json")).
  - by rewrite eqb_refl_true.
  - by rewrite append_assoc.
Qed.

(** X14. The second level: when no entry is a manifest one folder
    deep and the listing has a manifest two folders deep,
    [outer/inner/mod.json], the result is the two-folder path of such
    an entry and is not empty, so the archive is taken. *)
Theorem detectModArchive_nested (files : list QString) (outer inner : QString) :
  hasChar "/" outer = false →
  hasChar "/" inner = false →
  Forall (λ f, manifestDir 0 f = None) files →
  (outer ++ "/" ++ inner ++ "/mod.json") ∈ files →
  (detectModArchive files ++ "/mod.json") ∈ files
  ∧ countChar "/" (detectModArchive files) = 1
  ∧ ((∀ other, manifestDir 1 other ≠ None → other ∈ files →
               other = outer ++ "/" ++ inner ++ "/mod.json") →
     detectModArchive files = outer ++ "/" ++ inner).
Proof.
  intros Houter Hinner Hnone Hin.
  pose proof (manifestDir_nested outer inner Houter Hinner) as Hm.
  destruct (searchLevel_found 1 files _ _ Hin Hm) as (file' & dir' & Hin' & Hm' & Hs).
  assert (Hresult : detectModArchive files = dir').
  { unfold detectModArchive. cbn [searchLevels].
    by rewrite (proj2 (searchLevel_None 0 files) Hnone), Hs. }
  rewrite Hresult.
  pose proof Hm' as Hinv. apply manifestDir_inv in Hinv as [-> Hdepth]; [|auto].
  split; [done |]. split.
  - assert (Hone : countChar "/" dir' ≠ 0); [|lia].
    intros Hzero.
    rewrite Forall_forall in Hnone. specialize (Hnone _ Hin').
    unfold manifestDir in Hm', Hnone. rewrite section_0_0 in Hnone.
    rewrite section_0_1 in Hm'.
    destruct (String.eqb_spec (dir' ++ "/mod.json")
                (join "/" (take 2 (split "/" (dir' ++ "/mod.json"))) ++ "/mod.json"))
      as [Heq|]; [|done].
    injection Hm' as Hdir.
    pose proof (split_fields_no_sep "/" (dir' ++ "/mod.json")) as Hfields.
    destruct (split "/" (dir' ++ "/mod.json")) as [|f [|g fs]] eqn:Hsplit.
    + destruct (split_cons "/" (dir' ++ "/mod.json")) as (? & ? & E). congruence.
    + cbn [take join] in *. rewrite Hdir, eqb_refl_true in Hnone. done.
    + cbn [take] in Hdir. rewrite take_0, join_cons2 in Hdir. cbn [join] in Hdir.
      rewrite <- Hdir, countChar_append in Hzero. cbn [countChar] in Hzero.
      rewrite Ascii.eqb_refl in Hzero. lia.
  - intros Honly.
    assert (Hsame : dir' ++ "/mod.json" = outer ++ "/" ++ inner ++ "/mod.json").
    { apply Honly; [by rewrite Hm' | done]. }
    rewrite Hsame in Hm'. rewrite Hm in Hm'. by injection Hm'.
Qed.

End ArchiveMore.

(** ** When a directory is removed *)

Section RemoveMore.

Import Manager.

Context {PF : Platform}.

(** X15. [removeModDir] reaches the recursive removal only for a path
    that has passed every check: the parent directory exists and is
    named "Mods" up to case, the absolute path holds "Mods", and,
    unless built for iOS, the parent of the parent exists, is named
    "vcmi" up to case and the absolute path holds "vcmi".  Its result
    is then the result of the removal of that very path. *)
Theorem removeModDir_only_when_safe (path : QString) (w : World) :
  removeModDir path w ≠ (false, w) →
  removeModDir path w = QDir_removeRecursively path w
  ∧ contains_ci (QDir_absolutePath w path) "Mods" = true
  ∧ ∃ parent,
      QDir_cdUp w path = Some parent
      ∧ toLower (QDir_dirName parent) = "mods"
      ∧ (VCMI_IOS = false →
         contains_ci (QDir_absolutePath w path) "vcmi" = true
         ∧ ∃ above, QDir_cdUp w parent = Some above
                    ∧ toLower (QDir_dirName above) = "vcmi").
Proof.
  unfold removeModDir. intros Hrun.
  destruct (QDir_cdUp w path) as [parent|] eqn:Hup; [|done].
  destruct (Z.eqb_spec (compare_ci "Mods" (QDir_dirName parent)) 0) as [Hmods|Hmods];
    cbn [negb] in *; [|done].
  apply compare_ci_eq in Hmods. symmetry in Hmods.
  destruct VCMI_IOS.
  - destruct (contains_ci (QDir_absolutePath w path) "Mods"); cbn [negb] in *; [|done].
    split; [done |]. split; [done |]. exists parent. by repeat split.
  - destruct (QDir_cdUp w parent) as [above|] eqn:Hup2; [|done].
    destruct (Z.eqb_spec (compare_ci "vcmi" (QDir_dirName above)) 0) as [Hv|Hv];
      cbn [negb] in *; [|done].
    apply compare_ci_eq in Hv. symmetry in Hv.
    destruct (contains_ci (QDir_absolutePath w path) "vcmi"); cbn [negb] in *; [|done].
    destruct (contains_ci (QDir_absolutePath w path) "Mods"); cbn [negb] in *; [|done].
    split; [done |]. split; [done |]. exists parent.
    split; [done |]. split; [done |]. intros _. split; [done |]. by exists above.
Qed.

End RemoveMore.

(** ** The list of local mods *)

Section LoadModsMore.

Import Manager Notions.

Context {ML : ModListApi} {PF : Platform}.

Lemma loadModsLoop_app (w : World) (first second : list QString)
    (acc : gmap string QVariant) :
  loadModsLoop w (first ++ second)%list acc
  = loadModsLoop w second (loadModsLoop w first acc).
Proof.
  revert acc. induction first as [|x first IH]; intros acc; [done |].
  cbn [app loadModsLoop]. by destruct (existsResource w (getModFile x)).
Qed.

Lemma loadModsLoop_untouched (w : World) (installedMods : list QString) (key : QString) :
  Forall (λ n, existsResource w (getModFile n) = true → toLower n ≠ key) installedMods →
  ∀ acc : gmap string QVariant, loadModsLoop w installedMods acc !! key = acc !! key.
Proof.
  induction 1 as [|x rest Hx _ IH]; intros acc; [done |].
  cbn [loadModsLoop]. destruct (existsResource w (getModFile x)); [|done].
  rewrite IH. by rewrite lookup_insert_ne by by apply Hx.
Qed.

Lemma loadModsLoop_lookup (w : World) (installedMods : list QString) :
  ∀ (acc : gmap string QVariant) (key : QString) (v : QVariant),
    loadModsLoop w installedMods acc !! key = Some v →
    acc !! key = Some v
    ∨ ∃ name, name ∈ installedMods
              ∧ existsResource w (getModFile name) = true
              ∧ key = toLower name
              ∧ v = localModEntry w name.
Proof.
  induction installedMods as [|name rest IH]; cbn [loadModsLoop]; intros acc key v Hkey;
    [by left |].
  destruct (existsResource w (getModFile name)) eqn:Hres.
  - destruct (IH _ _ _ Hkey) as [Hacc | (n & Hn & Hr & -> & ->)].
    + destruct (decide (toLower name = key)) as [<- | Hne].
      * rewrite lookup_insert_eq in Hacc. injection Hacc as <-.
        right. exists name. split; [apply list_elem_of_here | done].
      * left. by rewrite lookup_insert_ne in Hacc.
    + right. exists n. split; [by apply list_elem_of_further | done].
  - destruct (IH _ _ _ Hkey) as [Hacc | (n & Hn & Hr & -> & ->)]; [by left |].
    right. exists n. split; [by apply list_elem_of_further | done].
Qed.

Lemma fold_add_grows (sizes : list Z) :
  ∀ total : Z, Forall (λ size, (0 ≤ size)%Z) sizes →
               (total ≤ fold_left Z.add sizes total)%Z.
Proof.
  induction sizes as [|x sizes IH]; intros total Hsizes; cbn [fold_left]; [lia |].
  apply Forall_cons in Hsizes as [Hx Hsizes]. specialize (IH (total + x)%Z Hsizes). lia.
Qed.

(** Sizes that are not negative and whose sum has at most 53 binary
    digits are added and stored exactly. *)
Lemma fold_wrap_exact (sizes : list Z) :
  ∀ total : Z,
    (0 ≤ total)%Z → Forall (λ size, (0 ≤ size)%Z) sizes →
    (fold_left Z.add sizes total < 2 ^ 53)%Z →
    fold_left (λ total size, wrap_qint64 (total + size)) sizes total
    = fold_left Z.add sizes total.
Proof.
  induction sizes as [|size sizes IH]; intros total Htotal Hsizes Hsum; [done |].
  apply Forall_cons in Hsizes as [Hsize Hsizes]. cbn [fold_left] in *.
  pose proof (fold_add_grows sizes (total + size)%Z Hsizes) as Hle.
  assert (Hwrap : wrap_qint64 (total + size) = (total + size)%Z).
  { unfold wrap_qint64. rewrite Z.mod_small; lia. }
  rewrite Hwrap. apply IH; [lia | done | done].
Qed.

Lemma toDouble_exact (n : Z) : (0 ≤ n < 2 ^ 53)%Z → toDouble n = n.
Proof.
  intros Hn. unfold toDouble. rewrite Z.abs_eq by lia.
  by rewrite (proj2 (Z.ltb_lt _ _)) by lia.
Qed.

Lemma fold_sizesRead (entries : list Z) :
  fold_left Z.add (sizesRead entries) 0%Z = fold_left Z.add (removelast entries) 0%Z.
Proof. by destruct entries. Qed.

Lemma sizesRead_nonneg (entries : list Z) :
  Forall (λ size, (0 ≤ size)%Z) entries →
  Forall (λ size, (0 ≤ size)%Z) (sizesRead entries).
Proof.
  intros Hentries. destruct entries as [|x entries]; [done |].
  cbn [sizesRead]. constructor; [done |].
  rewrite Forall_forall in *. intros y Hy. apply Hentries.
  apply list_elem_of_In. apply list_elem_of_In in Hy.
  revert Hy. generalize (x :: entries). clear.
  induction l as [|a [|b l] IH]; cbn; [done | done |].
  intros [-> | Hin]; [by left | right; by apply IH].
Qed.

(** X16. Every entry of [localMods] after [loadMods] is the record of
    an installed mod whose manifest exists: the content of its
    manifest file with [localSizeBytes] set and, when the manifest's
    path is not absolute, [storedLocaly] set to true; all other keys of
    the manifest are kept.  [localSizeBytes] is the [double] of the
    [qint64] total of the loop over the mod's directory, which reads
    the size of every entry of the iteration but the last: for sizes
    that are not negative and add up to less than [2^53] it is exactly
    the sum of the sizes of all entries but the last, and it is 0 when
    the directory is no resource. *)
Theorem loadMods_entries (m : CModManager) (w : World) (key : QString) (v : QVariant) :
  localMods (loadMods m w) !! key = Some v →
  ∃ name,
    name ∈ getAllMods w
    ∧ existsResource w (getModFile name) = true
    ∧ key = toLower name
    ∧ toMap v !! "localSizeBytes"
      = Some (VNumber
                (toDouble
                   (if existsResource w (getModDir name)
                    then fold_left (λ total size, wrap_qint64 (total + size))
                           (sizesRead
                              (QDirIterator_sizes w (getResourceName w (getModDir name))))
                           0
                    else 0)))
    ∧ (existsResource w (getModDir name) = false →
       toMap v !! "localSizeBytes" = Some (VNumber 0))
    ∧ (existsResource w (getModDir name) = true →
       Forall (λ size, 0 ≤ size)
         (QDirIterator_sizes w (getResourceName w (getModDir name))) →
       fold_left Z.add
         (removelast (QDirIterator_sizes w (getResourceName w (getModDir name)))) 0
       < 2 ^ 53 →
       toMap v !! "localSizeBytes"
       = Some (VNumber
                 (fold_left Z.add
                    (removelast
                       (QDirIterator_sizes w (getResourceName w (getModDir name)))) 0)))
    ∧ (is_absolute (getResourceName w (getModFile name)) = false →
       toMap v !! "storedLocaly" = Some (VBool true))
    ∧ ∀ other, other ≠ "localSizeBytes" → other ≠ "storedLocaly" →
               toMap v !! other
               = toMap (JsonFromFile w (getResourceName w (getModFile name))) !! other.
Proof.
  intros Hkey. cbn in Hkey.
  destruct (loadModsLoop_lookup _ _ _ _ _ Hkey) as [Hempty | (name & Hn & Hr & -> & ->)].
  { by rewrite lookup_empty in Hempty. }
  exists name. split; [done |]. split; [done |]. split; [done |].
  set (sizes := QDirIterator_sizes w (getResourceName w (getModDir name))).
  set (total := if existsResource w (getModDir name)
                then fold_left (λ total size, wrap_qint64 (total + size))
                       (sizesRead sizes) 0
                else 0).
  assert (Hsize : toMap (localModEntry w name) !! "localSizeBytes"
                  = Some (VNumber (toDouble total))).
  { unfold localModEntry. fold sizes. fold total.
    destruct (is_absolute (getResourceName w (getModFile name))); cbn [negb toMap].
    - by rewrite lookup_insert_eq.
    - by rewrite lookup_insert_ne, lookup_insert_eq. }
  split; [exact Hsize |]. split.
  { intros Hdir. rewrite Hsize. unfold total. by rewrite Hdir. }
  split.
  { intros Hdir Hnonneg Hsum. rewrite Hsize. unfold total. rewrite Hdir.
    pose proof (sizesRead_nonneg sizes Hnonneg) as Hread.
    rewrite fold_wrap_exact, fold_sizesRead; [| lia | done | by rewrite fold_sizesRead].
    rewrite toDouble_exact; [done |].
    rewrite <- fold_sizesRead. split; [by apply fold_add_grows | by rewrite fold_sizesRead]. }
  unfold localModEntry.
  destruct (is_absolute (getResourceName w (getModFile name))); cbn [negb toMap].
  - split; [done |]. intros other H1 H2. by rewrite lookup_insert_ne.
  - split; [intros _; by rewrite lookup_insert_eq |].
    intros other H1 H2. by rewrite !lookup_insert_ne.
Qed.

(** X17. Of the installed mods whose names are the same up to case,
    [localMods] keeps one record, under the common lower-case key: the
    record of the one that stands last in the list of installed mods. *)
Theorem loadMods_last_wins (m : CModManager) (w : World)
    (earlier later : list QString) (name : QString) :
  getAllMods w = (earlier ++ name :: later)%list →
  existsResource w (getModFile name) = true →
  Forall (λ n, existsResource w (getModFile n) = true → toLower n ≠ toLower name) later →
  localMods (loadMods m w) !! toLower name = Some (localModEntry w name)
  ∧ ∀ twin, twin ∈ earlier → toLower twin = toLower name → twin ≠ toLower name →
            localMods (loadMods m w) !! twin = None.
Proof.
  intros Hlist Hres Hlater.
  assert (Hlookup : localMods (loadMods m w) !! toLower name = Some (localModEntry w name)).
  { cbn. rewrite Hlist, loadModsLoop_app. cbn [loadModsLoop]. rewrite Hres.
    rewrite (loadModsLoop_untouched _ _ _ Hlater). by rewrite lookup_insert_eq. }
  split; [exact Hlookup |].
  intros twin Hin Hsame Hcase.
  destruct (localMods (loadMods m w) !! twin) as [v|] eqn:Htwin; [|done].
  exfalso. cbn in Htwin.
  destruct (loadModsLoop_lookup _ _ _ _ _ Htwin) as [Hempty | (n & _ & _ & -> & _)].
  - by rewrite lookup_empty in Hempty.
  - apply Hcase. rewrite <- Hsame. symmetry. apply toLower_idem.
Qed.

Lemma index_has (key : QString) (ms : gmap string QVariant) :
  is_Some ((index key ms).2 !! key).
Proof.
  unfold index. destruct (ms !! key) eqn:Hkey; cbn [snd].
  - by rewrite Hkey.
  - by rewrite lookup_insert_eq.
Qed.

(** X18. The settings document always has the entry [activeMods]:
    the constructor puts it there, with the invalid variant when the
    settings file has none, and every public operation keeps it. *)
Theorem activeMods_always (ml : CModList) (t : Transition) (m : CModManager) (w : World) :
  hasActiveMods (create ml w)
  ∧ (hasActiveMods m → hasActiveMods (perform t m w).1.2).
Proof.
  split.
  - unfold hasActiveMods, create, loadModSettings.
    pose proof (index_has "activeMods" (toMap (JsonFromFile w (settingsPath w)))) as Hhas.
    by destruct (index "activeMods" (toMap (JsonFromFile w (settingsPath w)))).
  - intros Hm. unfold hasActiveMods in *.
    destruct (perform_outcome t m w)
      as [(modname & message & H) | [[_ H] | (_ & mod_ & on & H & _)]]; rewrite H.
    + done.
    + done.
    + cbn [snd]. unfold switched. cbn [modSettings set_modList set_modSettings].
      destruct (writeValue_activePath_map mod_ (modSettings m) (VBool on)) as [below ->].
      cbn [toMap]. by rewrite lookup_insert_eq.
Qed.

End LoadModsMore.

(** ** The further properties on the examples *)

Section FurtherExamples.

Import Manager Notions Reference MoreExamples.

Local Ltac each_member :=
  let x := fresh "x" in
  let Hx := fresh "Hx" in
  intros x Hx; cbn in Hx;
  repeat (apply elem_of_cons in Hx as [-> | Hx]);
  try (by apply elem_of_nil in Hx).

(** [a] of [tableEnable] is accepted. *)
Lemma canEnableMod_complete_witness :
  canEnableMod "a" (managerOf tableEnable) = (true, managerOf tableEnable).
Proof.
  apply (canEnableMod_complete "a" (managerOf tableEnable)).
  - reflexivity.
  - reflexivity.
  - reflexivity.
  - each_member. by split.
  - each_member; intros Hen; try discriminate Hen.
    cbn. apply not_elem_of_nil.
  - each_member. intros [_ Hen]. discriminate Hen.
Defined.

(** [a] of [tableMissing] needs the unknown [b]. *)
Lemma canEnableMod_dependency_named_witness :
  canEnableMod "a" (managerOf tableMissing)
  = addError "a" "Required mod b is missing" (managerOf tableMissing).
Proof.
  apply (canEnableMod_dependency_named "a" "b" [] [] (managerOf tableMissing)).
  - reflexivity.
  - reflexivity.
  - reflexivity.
  - reflexivity.
  - constructor.
  - reflexivity.
Defined.

(** [a] of [tableReverse] is excluded by the enabled [c]. *)
Lemma canEnableMod_reverse_conflict_named_witness :
  canEnableMod "a" (managerOf tableReverse)
  = addError "a" "This mod conflicts with c" (managerOf tableReverse).
Proof.
  apply (canEnableMod_reverse_conflict_named "a" "c" ["a"] [] (managerOf tableReverse)).
  - reflexivity.
  - reflexivity.
  - reflexivity.
  - each_member.
  - reflexivity.
  - constructor; [|constructor]. intros Hen. discriminate Hen.
  - reflexivity.
  - cbn. apply list_elem_of_here.
Defined.

(** [a] of [tableConflict] excludes the enabled [c]. *)
Lemma canEnableMod_conflict_named_witness :
  canEnableMod "a" (managerOf tableConflict)
  = addError "a" "This mod conflicts with c" (managerOf tableConflict).
Proof.
  apply (canEnableMod_conflict_named "a" "c" [] [] (managerOf tableConflict)).
  - reflexivity.
  - reflexivity.
  - reflexivity.
  - each_member.
  - each_member; intros Hen; try discriminate Hen.
    cbn. apply not_elem_of_nil.
  - reflexivity.
  - constructor.
  - reflexivity.
  - reflexivity.
Defined.

(** Writing the flag of [a] leaves the flag of [b] where it was. *)
Lemma writeValue_frame_witness :
  Settings.lookupKeys ["activeMods"; "b"; "active"]
    (Settings.writeValue "/activeMods/a/active"
       (<["activeMods" := VMap (<["b" := VMap (<["active" := VBool true]> ∅)]> ∅)]> ∅)
       (VBool false))
  = Settings.lookupKeys ["activeMods"; "b"; "active"]
      (VMap (<["activeMods" := VMap (<["b" := VMap (<["active" := VBool true]> ∅)]> ∅)]> ∅)).
Proof.
  apply (writeValue_frame "/activeMods/a/active" ["activeMods"; "b"; "active"]).
  cbn. right. split; [reflexivity |]. left. discriminate.
Defined.


(** Enabling [a] of [tableEnable] writes its flag and saves it. *)
Lemma perform_switches_witness :
  ∃ mod_ on,
    (Enable "a" = Enable mod_ ∧ on = true ∨ Enable "a" = Disable mod_ ∧ on = false)
    ∧ modSettings (perform (Enable "a") (managerOf tableEnable) home).1.2
      = toMap (Settings.writeValue (Settings.activePath mod_)
                 (modSettings (managerOf tableEnable)) (VBool on))
    ∧ localMods (perform (Enable "a") (managerOf tableEnable) home).1.2
      = localMods (managerOf tableEnable)
    ∧ (perform (Enable "a") (managerOf tableEnable) home).2
      = JsonToFile (settingsPath home)
          (modSettings (perform (Enable "a") (managerOf tableEnable) home).1.2) home.
Proof.
  apply (perform_switches (Enable "a") (managerOf tableEnable) home); reflexivity.
Defined.

(** Enabling [a] leaves the flag of [b]. *)
Lemma doEnableMod_other_flag_witness :
  Settings.lookupKeys (Settings.activeKeys "b")
    (VMap (modSettings (doEnableMod "a" true (managerOf tableEnable) home).1.2))
  = Settings.lookupKeys (Settings.activeKeys "b")
      (VMap (modSettings (managerOf tableEnable))).
Proof.
  apply (doEnableMod_other_flag "a" "b" true (managerOf tableEnable) home).
  - reflexivity.
  - discriminate.
Defined.

(** C5 fails on the code for paths of another form.  The path [/a/]
    has the fields [a] and the empty one, and the write puts the value
    under [a] alone; the path [ab] has the one field [ab], and the
    write drops its first character and puts the value under [b]. *)
Lemma writeValue_other_paths :
  segments "/a/" = ["a"; ""]
  ∧ Settings.writeValue "/a/" ∅ (VBool true) = VMap (<["a" := VBool true]> ∅)
  ∧ readPath "/a/" (Settings.writeValue "/a/" ∅ (VBool true)) ≠ VBool true
  ∧ segments "ab" = ["ab"]
  ∧ Settings.writeValue "ab" ∅ (VBool true) = VMap (<["b" := VBool true]> ∅)
  ∧ readPath "ab" (Settings.writeValue "ab" ∅ (VBool true)) ≠ VBool true.
Proof. repeat split; try reflexivity; discriminate. Qed.

(** The flag of the mod [a], written and read back along the fields of
    its path. *)
Lemma writeValue_route_roundtrip_witness :
  segments "/activeMods/a/active" = ["activeMods"; "a"; "active"]
  ∧ readPath "/activeMods/a/active"
      (Settings.writeValue "/activeMods/a/active"
         (<["activeMods" := VMap (<["b" := VBool true]> ∅)]> (<["other" := VNumber 1]> ∅))
         (VBool true))
    = VBool true.
Proof.
  destruct (writeValue_route_roundtrip ["activeMods"; "a"; "active"]
              (<["activeMods" := VMap (<["b" := VBool true]> ∅)]> (<["other" := VNumber 1]> ∅))
              (VBool true)) as (Hsegments & Hread & _).
  - repeat constructor.
  - discriminate.
  - split; [exact Hsegments | exact Hread].
Defined.


(** The package [a] of [tableLoose] is accepted although its
    dependency [b] is not installed: [canEnableMod] itself does not
    look at [isInstalled] of a dependency. *)
Lemma canEnableMod_trusts_the_list :
  (canEnableMod "a" (managerOf tableLoose)).1 = true
  ∧ isEnabled (getMod tableLoose "b") = true
  ∧ isInstalled (getMod tableLoose "b") = false.
Proof. repeat split; reflexivity. Qed.

(** The listing of [/tmp/nested.zip]: its manifest lies two folders
    deep. *)
Lemma detectModArchive_sound_witness :
  (Archive.detectModArchive ["pack/readme.txt"; "pack/Foo/mod.json"] ++ "/mod.json")
    ∈ ["pack/readme.txt"; "pack/Foo/mod.json"]
  ∧ (countChar "/" (Archive.detectModArchive ["pack/readme.txt"; "pack/Foo/mod.json"])
     ≤ 1)%nat.
Proof.
  apply (detectModArchive_sound ["pack/readme.txt"; "pack/Foo/mod.json"]).
  discriminate.
Defined.

Lemma detectModArchive_nested_witness :
  Archive.detectModArchive ["pack/readme.txt"; "pack/Foo/mod.json"] = "pack/Foo".
Proof.
  apply (detectModArchive_nested ["pack/readme.txt"; "pack/Foo/mod.json"] "pack" "Foo").
  - reflexivity.
  - reflexivity.
  - repeat constructor.
  - apply list_elem_of_further, list_elem_of_here.
  - intros other Hm Hin.
    repeat (apply elem_of_cons in Hin as [-> | Hin]); [by destruct Hm | done |].
    by apply elem_of_nil in Hin.
Defined.

(** The folder of the mod [b] passes every check. *)
Lemma removeModDir_only_when_safe_witness :
  removeModDir "/home/user/vcmi/Mods/b" home
  = QDir_removeRecursively "/home/user/vcmi/Mods/b" home
  ∧ QDir_cdUp home "/home/user/vcmi/Mods/b" = Some "/home/user/vcmi/Mods".
Proof.
  destruct (removeModDir_only_when_safe "/home/user/vcmi/Mods/b" home)
    as (Hrun & _ & parent & Hup & _).
  - discriminate.
  - split; [exact Hrun | reflexivity].
Defined.

(** The record of the mod [Foo] on [sizedDisk]: the loop reads the
    sizes 0, 100 and 200, not the 300 of the last entry, and the
    manifest, found under a path that is not absolute, is marked as
    stored locally. *)
Lemma loadMods_entries_witness :
  ∃ name,
    name ∈ getAllMods (Platform := sizedDisk) home
    ∧ "foo" = toLower name
    ∧ toMap (localModEntry (PF := sizedDisk) home "Foo") !! "localSizeBytes"
      = Some (VNumber 300)
    ∧ toMap (localModEntry (PF := sizedDisk) home "Foo") !! "storedLocaly"
      = Some (VBool true).
Proof.
  destruct (loadMods_entries (PF := sizedDisk) (managerOf tableEmpty) home "foo"
              (localModEntry (PF := sizedDisk) home "Foo"))
    as (name & Hin & Hres & Hkey & _ & _ & Hexact & Hlocal & _).
  - reflexivity.
  - exists name. split; [exact Hin |]. split; [exact Hkey |]. split.
    + apply Hexact; [exact Hres | repeat constructor; lia | reflexivity].
    + apply Hlocal. reflexivity.
Defined.

(** On [twins] the folders [Foo] and [foo] give one record, the one of
    [foo]. *)
Lemma loadMods_last_wins_witness :
  getAllMods twins = ["Foo"; "foo"]
  ∧ localMods (loadMods (managerOf tableEmpty) twins) !! "foo"
    = Some (localModEntry twins "foo")
  ∧ localMods (loadMods (managerOf tableEmpty) twins) !! "Foo" = None.
Proof.
  destruct (loadMods_last_wins (managerOf tableEmpty) twins ["Foo"] [] "foo")
    as [Hlast Htwin].
  - reflexivity.
  - reflexivity.
  - constructor.
  - split; [reflexivity |]. split; [exact Hlast |].
    apply Htwin; [apply list_elem_of_here | reflexivity | discriminate].
Defined.

(** Two errors with plain names, read back. *)
Lemma getErrors_plain_witness :
  (getErrors (addErrors [("a", "Mod is not installed"); ("b.c", "Can not install submod")]
                (managerOf tableEmpty))).1
  = ["a: Mod is not installed"; "b.c: Can not install submod"]
  ∧ recentErrors
      (getErrors (addErrors [("a", "Mod is not installed");
                             ("b.c", "Can not install submod")]
                    (managerOf tableEmpty))).2 = [].
Proof.
  apply (getErrors_plain [("a", "Mod is not installed"); ("b.c", "Can not install submod")]
           (managerOf tableEmpty)).
  repeat constructor.
Defined.

End FurtherExamples.
